(** * Ring-road traffic simulation (IDM with a scripted leader)

    A shallow embedding of [TrafficSimulation] from
    [Proyecto/simulacionPoo.py] and [ScriptFinal.py].  The two files hold
    the same methods and differ only in the constants set by [__init__].

    Numbers.  The program computes with binary64 floats.  Here a float is
    an exact rational ([Q]): rounding, infinities and NaN are not
    modelled.  NumPy's float division by zero (which yields inf or nan and
    never raises) has the value [x / 0 = 0] of [Qdiv]; every theorem whose
    truth depends on such a quotient assumes the divisor is not zero.
    [math.sqrt] is library code and stays a parameter of the methods.
    Where a property turns on rounding itself, the statement of the
    code concerned is given a second time over binary64 numbers (Rocq's
    primitive floats), with the operations the program performs.

    Exceptions.  Python's [IndexError], [ZeroDivisionError] (integer and
    Python-float modulo) and [ValueError] ([math.sqrt] of a negative
    number) are the [Raise] results of a small error monad.

    Layout.  The definitions come first: the primitives, the object, its
    methods as the source writes them (loops over index ranges, arrays
    updated in place), then the same step written vehicle by vehicle.
    The theory follows: [run_step_refines] relates the two, and each
    property of the design is proved from the vehicle-by-vehicle form.
    The last part runs concrete rings, among them the ring of
    [simulacionPoo.py] under its own driver loop. *)

From Stdlib Require Import QArith Qround Lqa Lia.
From Stdlib Require Import PrimFloat.
From stdpp Require Import base list.

Local Open Scope Q_scope.

(** ** Results and exceptions *)

Inductive error : Set :=
  | IndexError
  | ZeroDivisionError
  | ValueError.

Inductive result (A : Type) : Type :=
  | Ok (x : A)
  | Raise (e : error).

Arguments Ok {A} x.
Arguments Raise {A} e.

Definition bind {A B : Type} (m : result A) (k : A -> result B) : result B :=
  match m with
  | Ok x => k x
  | Raise e => Raise e
  end.

Notation "'let*' x ':=' m 'in' k" := (bind m (fun x => k))
  (at level 10, x name, m at level 200, k at level 200).

(** ** Python and NumPy primitives *)

(** [a < b] on floats. *)
Definition Qltb (a b : Q) : bool := negb (Qle_bool b a).

(** The builtin [max(a, b)]: the first argument unless the second is
    strictly greater. *)
Definition py_max (a b : Q) : Q := if Qltb a b then b else a.

(** Floored remainder [x - y * floor (x / y)], the value of [%] on floats
    (the result takes the sign of the divisor). *)
Definition Qmod (x y : Q) : Q := x - y * inject_Z (Qfloor (x / y)).

(** [%] between two Python floats raises on a zero divisor. *)
Definition float_mod (x y : Q) : result Q :=
  if Qeq_bool y 0 then Raise ZeroDivisionError else Ok (Qmod x y).

(** [%] with a NumPy float64 on the left never raises. *)
Definition np_remainder (x y : Q) : Q := Qmod x y.

(** [%] between two Python ints. *)
Definition int_mod (a b : nat) : result nat :=
  match b with
  | O => Raise ZeroDivisionError
  | _ => Ok (a mod b)%nat
  end.

(** [a[i]] for reading. *)
Definition getitem (a : list Q) (i : nat) : result Q :=
  match a !! i with
  | Some x => Ok x
  | None => Raise IndexError
  end.

(** [a[i] = x]. *)
Definition setitem (a : list Q) (i : nat) (x : Q) : result (list Q) :=
  if (i <? length a)%nat then Ok (<[i:=x]> a) else Raise IndexError.

(** [np.linspace(start, stop, num, endpoint=False)]. *)
Definition linspace (start stop : Q) (num : nat) : list Q :=
  map (fun i : nat => inject_Z (Z.of_nat i) * ((stop - start) / inject_Z (Z.of_nat num)) + start)
      (seq 0 num).

(** [np.ones(n)] and [np.zeros(n)]. *)
Definition ones (n : nat) : list Q := repeat 1 n.
Definition zeros (n : nat) : list Q := repeat 0 n.

(** [for i in range(n): body], threading the variables the body assigns. *)
Fixpoint for_in {S : Type} (l : list nat) (body : nat -> S -> result S) (st : S)
  : result S :=
  match l with
  | [] => Ok st
  | i :: l' => let* st' := body i st in for_in l' body st'
  end.

Definition for_range {S : Type} (n : nat) (body : nat -> S -> result S) (st : S)
  : result S :=
  for_in (seq 0 n) body st.

(** ** The simulation object *)

Module TrafficSimulation.

Record self : Type := Build {
  N : nat;
  CIRC : Q;
  DT : Q;
  SIM_TIME : Q;
  L_VEHICLE : Q;
  S0 : Q;
  V0 : Q;
  A_MAX : Q;
  B_DECEL : Q;
  T_HEADWAY : Q;
  STOP_DURATION : Q;
  FIRST_STOP : Q;
  REPEAT_INTERVAL : Q;
  s : list Q;
  v : list Q
}.

(** The body of [__init__] with its literals as arguments. *)
Definition init (n : nat) (circ dt sim_time l_vehicle s0 v0 a_max b_decel
                 t_headway stop_duration first_stop repeat_interval : Q) : self :=
  {| N := n; CIRC := circ; DT := dt; SIM_TIME := sim_time;
     L_VEHICLE := l_vehicle; S0 := s0;
     V0 := v0; A_MAX := a_max; B_DECEL := b_decel; T_HEADWAY := t_headway;
     STOP_DURATION := stop_duration; FIRST_STOP := first_stop;
     REPEAT_INTERVAL := repeat_interval;
     s := linspace 0 circ n;
     v := map (fun one => one * v0) (ones n) |}.

(** [TrafficSimulation()] of [Proyecto/simulacionPoo.py]. *)
Definition simulacionPoo : self :=
  init 22 230 0.05 1200 4 2 10 1 4 1.6 2 2 10.

(** [TrafficSimulation()] of [ScriptFinal.py]. *)
Definition ScriptFinal : self :=
  init 20 230 0.05 1200 4 2 15 0.8 4 1.6 6 2 15.

(** [self.s = s_new; self.v = v_new]. *)
Definition assign (sim : self) (s_new v_new : list Q) : self :=
  {| N := N sim; CIRC := CIRC sim; DT := DT sim; SIM_TIME := SIM_TIME sim;
     L_VEHICLE := L_VEHICLE sim; S0 := S0 sim;
     V0 := V0 sim; A_MAX := A_MAX sim; B_DECEL := B_DECEL sim;
     T_HEADWAY := T_HEADWAY sim;
     STOP_DURATION := STOP_DURATION sim; FIRST_STOP := FIRST_STOP sim;
     REPEAT_INTERVAL := REPEAT_INTERVAL sim;
     s := s_new; v := v_new |}.

(** ** Concrete objects for the examples *)

(** A rational stand-in for [math.sqrt] with 52 fractional bits; exact on
    [A_MAX * B_DECEL = 4] of [simulacionPoo.py]. *)
Definition float_sqrt (x : Q) : Q :=
  Z.sqrt (Qfloor (x * inject_Z (2 ^ 104))) # 2 ^ 52.

(** The constants of [simulacionPoo.py] on a ring of 10 m with two
    vehicles, and on the full ring with a single vehicle. *)
Definition small_ring : self := init 2 10 0.05 1200 4 2 10 1 4 1.6 2 2 10.
Definition single : self := init 1 230 0.05 1200 4 2 10 1 4 1.6 2 2 10.

(** The small ring with the leader at rest. *)
Definition small_ring_at_rest : self := assign small_ring [0; 5] [0; 10].

(** The small ring with the follower elsewhere and slower. *)
Definition small_ring_moved : self :=
  assign small_ring (<[1%nat:=7]> (s small_ring)) (<[1%nat:=3]> (v small_ring)).

Section Methods.

(** The value of [math.sqrt] on non-negative arguments. *)
Variable math_sqrt : Q -> Q.

(** [math.sqrt(x)], a [ValueError] when [x] is negative. *)
Definition sqrt (x : Q) : result Q :=
  if Qltb x 0 then Raise ValueError else Ok (math_sqrt x).

(** [(i - 1 + self.N) % self.N] on non-negative ints. *)
Definition leader_index (sim : self) (i : nat) : result nat :=
  int_mod (i + N sim - 1) (N sim).

(** [get_gap(self, i, s_curr)]. *)
Definition get_gap (sim : self) (i : nat) (s_curr : list Q) : result Q :=
  let* leader_idx := leader_index sim i in
  let* s_leader := getitem s_curr leader_idx in
  let* s_i := getitem s_curr i in
  let dist := s_leader - s_i in
  let dist := if Qltb dist 0 then dist + CIRC sim else dist in
  Ok (dist - L_VEHICLE sim).

(** [idm_accel(self, v_curr, v_leader, gap)]. *)
Definition idm_accel (sim : self) (v_curr v_leader gap : Q) : result Q :=
  let delta_v := v_curr - v_leader in
  let* root := sqrt (A_MAX sim * B_DECEL sim) in
  let s_star :=
    S0 sim + py_max 0 (v_curr * T_HEADWAY sim + (v_curr * delta_v) / (2 * root)) in
  let effective_gap := py_max 0.01 gap in
  Ok (A_MAX sim * (1 - (v_curr / V0 sim) ^ 4 - (s_star / effective_gap) ^ 2)).

(** [leader_stopped(self, t)]; [t] is a Python float, as [run] passes it. *)
Definition leader_stopped (sim : self) (t : Q) : result bool :=
  let time_since_start := t - FIRST_STOP sim in
  if Qle_bool 0 time_since_start then
    let* cycle_pos := float_mod time_since_start (REPEAT_INTERVAL sim) in
    Ok (Qltb cycle_pos (STOP_DURATION sim))
  else Ok false.

(** The arrays [run_step] assigns to. *)
Record locals : Type := Locals {
  s_new : list Q;
  v_new : list Q;
  accel : list Q
}.

(** Body of the first loop of [run_step]. *)
Definition accel_body (sim : self) (p0_is_stopped : bool) (i : nat) (loc : locals)
  : result locals :=
  if (i =? 0)%nat then
    if p0_is_stopped then
      let* v_i := getitem (v sim) i in
      if Qltb 0 v_i then
        let* accel' := setitem (accel loc) i (-10) in
        Ok (Locals (s_new loc) (v_new loc) accel')
      else
        let* accel' := setitem (accel loc) i 0 in
        let* v_new' := setitem (v_new loc) i 0 in
        Ok (Locals (s_new loc) v_new' accel')
    else
      let* v_i := getitem (v sim) i in
      let* accel' := setitem (accel loc) i (A_MAX sim * (1 - (v_i / V0 sim) ^ 4)) in
      Ok (Locals (s_new loc) (v_new loc) accel')
  else
    let* leader_idx := leader_index sim i in
    let* gap := get_gap sim i (s sim) in
    let* v_i := getitem (v sim) i in
    let* v_leader := getitem (v sim) leader_idx in
    let* a := idm_accel sim v_i v_leader gap in
    let* accel' := setitem (accel loc) i a in
    Ok (Locals (s_new loc) (v_new loc) accel').

(** [i == 0 and p0_is_stopped and v_new[i] == 0], short-circuited. *)
Definition skip_test (p0_is_stopped : bool) (i : nat) (loc : locals) : result bool :=
  if (i =? 0)%nat then
    if p0_is_stopped then
      let* v_new_i := getitem (v_new loc) i in
      Ok (Qeq_bool v_new_i 0)
    else Ok false
  else Ok false.

(** Body of the second loop of [run_step]. *)
Definition euler_body (sim : self) (p0_is_stopped : bool) (i : nat) (loc : locals)
  : result locals :=
  let* skip := skip_test p0_is_stopped i loc in
  if skip then Ok loc
  else
    let* v_i := getitem (v sim) i in
    let* a_i := getitem (accel loc) i in
    let* v_new1 := setitem (v_new loc) i (py_max 0 (v_i + a_i * DT sim)) in
    let* s_i := getitem (s sim) i in
    let* v_new_i := getitem v_new1 i in
    let* s_new1 := setitem (s_new loc) i (np_remainder (s_i + v_new_i * DT sim) (CIRC sim)) in
    if negb (i =? 0)%nat then
      let* gap := get_gap sim i (s sim) in
      let* v_new_i := getitem v_new1 i in
      if Qltb (gap - 0.5) (v_new_i * DT sim) then
        let* v_new2 := setitem v_new1 i (py_max 0 ((gap - 0.5) / DT sim)) in
        let* s_i := getitem (s sim) i in
        let* v_new_i := getitem v_new2 i in
        let* s_new2 := setitem s_new1 i (np_remainder (s_i + v_new_i * DT sim) (CIRC sim)) in
        Ok (Locals s_new2 v_new2 (accel loc))
      else Ok (Locals s_new1 v_new1 (accel loc))
    else Ok (Locals s_new1 v_new1 (accel loc)).

(** [run_step(self, t)]: the copies, the schedule, the two loops, and the
    assignment of the new arrays. *)
Definition run_step (sim : self) (t : Q) : result self :=
  let loc := Locals (s sim) (v sim) (zeros (N sim)) in
  let* p0_is_stopped := leader_stopped sim t in
  let* loc := for_range (N sim) (accel_body sim p0_is_stopped) loc in
  let* loc := for_range (N sim) (euler_body sim p0_is_stopped) loc in
  Ok (assign sim (s_new loc) (v_new loc)).

(** A driver calling [run_step] once per time of [ts], in order. *)
Fixpoint run_steps (sim : self) (ts : list Q) : result self :=
  match ts with
  | [] => Ok sim
  | t :: ts' => let* sim' := run_step sim t in run_steps sim' ts'
  end.

(** ** The anti-collision rule on binary64 numbers

    The last statements of the second loop of [run_step], with the
    operations NumPy performs on binary64 numbers. *)



(** ** Construction and drivers *)


(** What a driver observes: the positions and velocities after each call. *)
Fixpoint run_trace (sim : self) (ts : list Q) : result (list (list Q * list Q)) :=
  match ts with
  | [] => Ok []
  | t :: ts' =>
      let* sim' := run_step sim t in
      let* rest := run_trace sim' ts' in
      Ok ((s sim', v sim') :: rest)
  end.



(** ** One step, vehicle by vehicle

    The same step written as the design describes it: every quantity is a
    function of the state before the step.  [run_step_refines] below shows
    that the loops of [run_step] compute exactly this. *)

Definition pos (sim : self) (i : nat) : Q := default 0 (s sim !! i).
Definition vel (sim : self) (i : nat) : Q := default 0 (v sim !! i).

Definition leader (sim : self) (i : nat) : nat := ((i + N sim - 1) mod N sim)%nat.

(** Ring distance from vehicle [i] forward to its leader. *)
Definition dist (sim : self) (i : nat) : Q :=
  let d := pos sim (leader sim i) - pos sim i in
  if Qltb d 0 then d + CIRC sim else d.

Definition gap (sim : self) (i : nat) : Q := dist sim i - L_VEHICLE sim.

Definition idm (sim : self) (v_curr v_leader g : Q) : Q :=
  let s_star :=
    S0 sim + py_max 0 (v_curr * T_HEADWAY sim
                       + (v_curr * (v_curr - v_leader))
                         / (2 * math_sqrt (A_MAX sim * B_DECEL sim))) in
  A_MAX sim * (1 - (v_curr / V0 sim) ^ 4 - (s_star / py_max 0.01 g) ^ 2).

Definition acceleration (sim : self) (stopped : bool) (i : nat) : Q :=
  match i with
  | O => if stopped then (if Qltb 0 (vel sim 0) then -10 else 0)
         else A_MAX sim * (1 - (vel sim 0 / V0 sim) ^ 4)
  | _ => idm sim (vel sim i) (vel sim (leader sim i)) (gap sim i)
  end.

(** The leader is commanded to stop and is not moving forward. *)
Definition pinned (sim : self) (stopped : bool) : bool :=
  stopped && negb (Qltb 0 (vel sim 0)).

Definition euler_velocity (sim : self) (stopped : bool) (i : nat) : Q :=
  py_max 0 (vel sim i + acceleration sim stopped i * DT sim).

Definition next_velocity (sim : self) (stopped : bool) (i : nat) : Q :=
  match i with
  | O => if pinned sim stopped then 0 else euler_velocity sim stopped 0
  | _ => if Qltb (gap sim i - 0.5) (euler_velocity sim stopped i * DT sim)
         then py_max 0 ((gap sim i - 0.5) / DT sim)
         else euler_velocity sim stopped i
  end.

Definition next_position (sim : self) (stopped : bool) (i : nat) : Q :=
  match i with
  | O => if pinned sim stopped then pos sim 0
         else Qmod (pos sim 0 + next_velocity sim stopped 0 * DT sim) (CIRC sim)
  | _ => Qmod (pos sim i + next_velocity sim stopped i * DT sim) (CIRC sim)
  end.

Definition step_spec (sim : self) (stopped : bool) : self :=
  assign sim (map (next_position sim stopped) (seq 0 (N sim)))
             (map (next_velocity sim stopped) (seq 0 (N sim))).

(** The update of a follower, which reads nothing of the leader's script. *)
Definition follower_velocity (sim : self) (i : nat) : Q :=
  let euler :=
    py_max 0 (vel sim i
              + idm sim (vel sim i) (vel sim (leader sim i)) (gap sim i) * DT sim) in
  if Qltb (gap sim i - 0.5) (euler * DT sim)
  then py_max 0 ((gap sim i - 0.5) / DT sim)
  else euler.

Definition follower_position (sim : self) (i : nat) : Q :=
  Qmod (pos sim i + follower_velocity sim i * DT sim) (CIRC sim).

(** ** Properties of an object *)

(** The state arrays hold one entry per vehicle. *)
Definition wf (sim : self) : Prop :=
  length (s sim) = N sim /\ length (v sim) = N sim.

(** Parameters under which no method raises. *)
Definition valid (sim : self) : Prop :=
  ~ REPEAT_INTERVAL sim == 0 /\ 0 <= A_MAX sim * B_DECEL sim.

(** The parameters of an object, its state arrays emptied. *)
Definition parameters (sim : self) : self := assign sim [] [].

(** The state arrays are those [__init__] builds from the parameters. *)
Definition fresh (sim : self) : Prop :=
  s sim = linspace 0 (CIRC sim) (N sim)
  /\ v sim = map (fun one => one * V0 sim) (ones (N sim)).

(** Every position lies in [[0, CIRC)]. *)
Definition in_ring (sim : self) : Prop :=
  forall i x, s sim !! i = Some x -> 0 <= x /\ x < CIRC sim.

(** ** Proof devices *)

(** [v_new] after the first loop has run [j] iterations. *)
Definition v_after_accel (sim : self) (stopped : bool) (j : nat) : list Q :=
  if (0 <? j)%nat && pinned sim stopped then <[O:=0]> (v sim) else v sim.


(** Two objects whose parameters and state arrays are equal as numbers. *)
Record sim_eq (a b : self) : Prop := SimEq {
  sim_eq_N : N a = N b;
  sim_eq_CIRC : CIRC a == CIRC b;
  sim_eq_DT : DT a == DT b;
  sim_eq_SIM_TIME : SIM_TIME a == SIM_TIME b;
  sim_eq_L_VEHICLE : L_VEHICLE a == L_VEHICLE b;
  sim_eq_S0 : S0 a == S0 b;
  sim_eq_V0 : V0 a == V0 b;
  sim_eq_A_MAX : A_MAX a == A_MAX b;
  sim_eq_B_DECEL : B_DECEL a == B_DECEL b;
  sim_eq_T_HEADWAY : T_HEADWAY a == T_HEADWAY b;
  sim_eq_STOP_DURATION : STOP_DURATION a == STOP_DURATION b;
  sim_eq_FIRST_STOP : FIRST_STOP a == FIRST_STOP b;
  sim_eq_REPEAT_INTERVAL : REPEAT_INTERVAL a == REPEAT_INTERVAL b;
  sim_eq_s : Forall2 Qeq (s a) (s b);
  sim_eq_v : Forall2 Qeq (v a) (v b)
}.

(** Two traces that show the same numbers call after call. *)
Definition trace_eq (tr1 tr2 : list (list Q * list Q)) : Prop :=
  Forall2 (fun p q => Forall2 Qeq (fst p) (fst q) /\ Forall2 Qeq (snd p) (snd q)) tr1 tr2.

(** The same state with every fraction in lowest terms. *)
Definition reduce (sim : self) : self :=
  assign sim (map Qred (s sim)) (map Qred (v sim)).




(** ** The main loop with its frame test

    [run] draws through Matplotlib; what the loop itself does is kept:
    the loop condition, the call of [run_step], the frame test
    [int(t / self.DT) % 2 == 0] with the exception its division can
    raise, and the increment of [t].  A call [self.draw(t)] is recorded
    as the pair of [t] and the positions it reads; [setup_draw], the
    prints and the plotting calls are left out.  The clock [t] is an
    exact rational here, while the program accumulates it in binary64
    and so visits other times and takes another number of steps;
    nothing below depends on the times visited or on their number. *)

(** [int(x)] on a float: truncation toward zero. *)
Definition int (x : Q) : Z := if Qltb x 0 then Qceiling x else Qfloor x.

(** [/] between two Python floats raises on a zero divisor. *)
Definition float_div (x y : Q) : result Q :=
  if Qeq_bool y 0 then Raise ZeroDivisionError else Ok (x / y).

(** What a call [self.draw(t)] reads. *)
Definition frame : Type := (Q * list Q)%type.

(** Where the loop stands after a bounded number of iterations: it has
    left the [while], or its condition still held when the bound was
    reached. *)
Inductive loop_state : Type :=
  | Returned (sim : self) (frames : list frame)
  | Looping (sim : self) (t : Q) (frames : list frame).

(** At most [fuel] iterations of
    [while t < SIM_TIME: run_step(t); if int(t / DT) % 2 == 0: draw(t); t += DT]. *)
Fixpoint run_from (fuel : nat) (sim : self) (t : Q) (frames : list frame)
  : result loop_state :=
  match fuel with
  | O => Ok (Looping sim t frames)
  | S fuel' =>
      if Qltb t (SIM_TIME sim) then
        let* sim' := run_step sim t in
        let* q := float_div t (DT sim') in
        let frames' :=
          if (int q mod 2 =? 0)%Z then frames ++ [(t, s sim')] else frames in
        run_from fuel' sim' (t + DT sim') frames'
      else Ok (Returned sim frames)
  end.

(** [run(self)], which starts the loop at [t = 0.0]. *)
Definition run (fuel : nat) (sim : self) : result loop_state :=
  run_from fuel sim 0 [].

(** Every velocity lies in [[0, V0]]. *)
Definition within_desired_speed (sim : self) : Prop :=
  forall i x, v sim !! i = Some x -> 0 <= x /\ x <= V0 sim.


(** The frames drawn so far. *)
Definition frames_of (st : loop_state) : list frame :=
  match st with
  | Returned _ frames => frames
  | Looping _ _ frames => frames
  end.


(** ** Further concrete objects *)

(** The small ring with both vehicles at rest, the follower one metre
    behind the leader's tail. *)
Definition small_ring_jam : self := assign small_ring [5; 0] [0; 0].

(** The small ring with every position moved 3 m along the ring. *)
Definition small_ring_shifted : self := assign small_ring [3; 8] (v small_ring).

(** The ring of [simulacionPoo.py] with vehicle 5 elsewhere and at rest. *)
Definition simulacionPoo_moved : self :=
  assign simulacionPoo (<[5%nat:=100]> (s simulacionPoo)) (<[5%nat:=0]> (v simulacionPoo)).

(** The small ring built with [DT = 0.0], with a negative [DT], and with
    a stop that lasts a whole interval. *)
Definition small_ring_frozen : self := init 2 10 0 1200 4 2 10 1 4 1.6 2 2 10.
Definition small_ring_always_stopped : self := init 2 10 0.05 1200 4 2 10 1 4 1.6 10 2 10.

(** The small ring after [self.v] was replaced by an array of one entry. *)
Definition small_ring_short : self := assign small_ring (s small_ring) [10].
(** ** Primitives *)

Lemma Qltb_lt (a b : Q) : Qltb a b = true <-> a < b.
Proof.
  unfold Qltb. rewrite negb_true_iff. split.
  - intros H. apply Qnot_le_lt. intros Hle.
    apply Qle_bool_iff in Hle. congruence.
  - intros H. destruct (Qle_bool b a) eqn:E; [|reflexivity].
    apply Qle_bool_iff in E. exfalso. apply (Qlt_not_le _ _ H E).
Qed.

Lemma Qltb_ge (a b : Q) : Qltb a b = false <-> b <= a.
Proof.
  unfold Qltb. rewrite negb_false_iff. apply Qle_bool_iff.
Qed.

Lemma py_max_lower (a b : Q) : a <= py_max a b.
Proof.
  unfold py_max. destruct (Qltb a b) eqn:E.
  - apply Qltb_lt in E. apply Qlt_le_weak, E.
  - apply Qle_refl.
Qed.

Lemma py_max_upper (a b : Q) : b <= py_max a b.
Proof.
  unfold py_max. destruct (Qltb a b) eqn:E.
  - apply Qle_refl.
  - apply Qltb_ge, E.
Qed.

Lemma py_max_first (a b : Q) : b <= a -> py_max a b = a.
Proof.
  intros H. unfold py_max. apply Qltb_ge in H. now rewrite H.
Qed.

Lemma py_max_second (a b : Q) : a < b -> py_max a b = b.
Proof.
  intros H. unfold py_max. apply Qltb_lt in H. now rewrite H.
Qed.

Lemma Qmod_bounds (x y : Q) : 0 < y -> 0 <= Qmod x y /\ Qmod x y < y.
Proof.
  intros Hy. unfold Qmod.
  assert (Hq : x == y * (x / y)).
  { field. intros E. rewrite E in Hy. revert Hy. apply Qlt_irrefl. }
  pose proof (Qfloor_le (x / y)) as Hlo.
  pose proof (Qlt_floor (x / y)) as Hhi.
  rewrite inject_Z_plus in Hhi. change (inject_Z 1) with 1 in Hhi.
  set (q := x / y) in *. set (f := inject_Z (Qfloor q)) in *.
  split.
  - assert (y * f <= y * q) by (apply Qmult_le_l; assumption).
    lra.
  - assert (y * q < y * (f + 1)) by (apply Qmult_lt_l; assumption).
    lra.
Qed.

Lemma Qmod_small (x y : Q) : 0 <= x -> x < y -> Qmod x y == x.
Proof.
  intros Hx Hxy. unfold Qmod.
  assert (Hy : 0 < y) by lra.
  assert (Hf : Qfloor (x / y) = 0%Z).
  { assert (H0 : 0 <= x / y).
    { apply Qle_shift_div_l; [assumption | lra]. }
    assert (H1 : x / y < 1).
    { apply Qlt_shift_div_r; [assumption | lra]. }
    pose proof (Qfloor_le (x / y)) as Hlo.
    pose proof (Qlt_floor (x / y)) as Hhi.
    assert (Ha : (inject_Z (Qfloor (x / y)) < inject_Z 1)) by (change (inject_Z 1) with 1; lra).
    assert (Hb : (inject_Z (-1) < inject_Z (Qfloor (x / y)))).
    { rewrite inject_Z_plus in Hhi. change (inject_Z 1) with 1 in Hhi.
      change (inject_Z (-1)) with (-1). lra. }
    rewrite <- Zlt_Qlt in Ha, Hb. lia. }
  rewrite Hf. change (inject_Z 0) with 0. ring.
Qed.

Lemma py_max_le (a b c : Q) : a <= c -> b <= c -> py_max a b <= c.
Proof. intros Ha Hb. unfold py_max. destruct (Qltb a b); assumption. Qed.

Lemma Qpower_2 (x : Q) : x ^ 2 == x * x.
Proof. reflexivity. Qed.

Lemma Qpower_4 (x : Q) : x ^ 4 == x * x * (x * x).
Proof. reflexivity. Qed.

#[global] Instance Qltb_comp : Proper (Qeq ==> Qeq ==> eq) Qltb.
Proof.
  intros a a' Ha b b' Hb. unfold Qltb. f_equal. apply Qleb_comp; assumption.
Qed.

#[global] Instance py_max_comp : Proper (Qeq ==> Qeq ==> Qeq) py_max.
Proof.
  intros a a' Ha b b' Hb. unfold py_max.
  rewrite (Qltb_comp a a' Ha b b' Hb). destruct (Qltb a' b'); assumption.
Qed.

#[global] Instance Qmod_comp : Proper (Qeq ==> Qeq ==> Qeq) Qmod.
Proof.
  intros x x' Hx y y' Hy. unfold Qmod.
  assert (Hf : Qfloor (x / y) = Qfloor (x' / y')) by (rewrite Hx, Hy; reflexivity).
  rewrite Hf, Hx, Hy. reflexivity.
Qed.

Lemma Qmod_decompose (x y : Q) : exists k : Z, Qmod x y == x - y * inject_Z k.
Proof. exists (Qfloor (x / y)). reflexivity. Qed.

(** The remainder is the only value in [[0, c)] that differs from [x] by
    a multiple of [c]. *)
Lemma Qmod_unique (x c r : Q) (m : Z) :
  0 < c -> 0 <= r -> r < c -> r == x - c * inject_Z m -> Qmod x c == r.
Proof.
  intros Hc Hr0 Hrc Hr.
  destruct (Qmod_bounds x c Hc) as [H0 H1].
  destruct (Qmod_decompose x c) as [f Hf].
  assert (Hk : Qmod x c - r == c * inject_Z (m - f)).
  { unfold Z.sub. rewrite inject_Z_plus, inject_Z_opp, Hf, Hr. ring. }
  assert (Hz : (m - f = 0)%Z).
  { destruct (Z_lt_le_dec (m - f) 0) as [Hneg|Hnn].
    - exfalso.
      assert (Hq : inject_Z (m - f) <= -1).
      { change (-1) with (inject_Z (-1)). rewrite <- Zle_Qle. lia. }
      assert (c * inject_Z (m - f) <= c * -1) by (apply Qmult_le_l; assumption).
      lra.
    - destruct (Z_le_lt_eq_dec 0 (m - f) Hnn) as [Hpos|Heq]; [exfalso | lia].
      assert (Hq : 1 <= inject_Z (m - f)).
      { change 1 with (inject_Z 1). rewrite <- Zle_Qle. lia. }
      assert (c * 1 <= c * inject_Z (m - f)) by (apply Qmult_le_l; assumption).
      lra. }
  rewrite Hz in Hk. change (inject_Z 0) with 0 in Hk. lra.
Qed.

Lemma Qmod_add_mod (x d c : Q) :
  0 < c -> Qmod (Qmod x c + d) c == Qmod (x + d) c.
Proof.
  intros Hc.
  destruct (Qmod_bounds (x + d) c Hc) as [H0 H1].
  destruct (Qmod_decompose x c) as [f0 Hf0].
  destruct (Qmod_decompose (x + d) c) as [f1 Hf1].
  apply (Qmod_unique _ c _ (f1 - f0)%Z); try assumption.
  unfold Z.sub. rewrite inject_Z_plus, inject_Z_opp, Hf1, Hf0. ring.
Qed.

(** The ring distance between two points given modulo [c]. *)
Lemma wrap_unique (c x d : Q) (m : Z) :
  0 < c -> 0 <= d -> d < c ->
  x == d - c * inject_Z m -> - c < x -> x < c ->
  (if Qltb x 0 then x + c else x) == d.
Proof.
  intros Hc Hd0 Hdc Hx Hlo Hhi.
  assert (Hm0 : (0 <= m)%Z).
  { destruct (Z_le_gt_dec 0 m) as [H|H]; [exact H|exfalso].
    assert (Hq : inject_Z m <= -1).
    { change (-1) with (inject_Z (-1)). rewrite <- Zle_Qle. lia. }
    assert (c * inject_Z m <= c * -1) by (apply Qmult_le_l; assumption).
    lra. }
  assert (Hm1 : (m <= 1)%Z).
  { destruct (Z_le_gt_dec m 1) as [H|H]; [exact H|exfalso].
    assert (Hq : 2 <= inject_Z m).
    { change 2 with (inject_Z 2). rewrite <- Zle_Qle. lia. }
    assert (c * 2 <= c * inject_Z m) by (apply Qmult_le_l; assumption).
    lra. }
  assert (Hcases : m = 0%Z \/ m = 1%Z) by lia.
  destruct Hcases as [-> | ->].
  - change (inject_Z 0) with 0 in Hx.
    assert (E : Qltb x 0 = false) by (apply Qltb_ge; lra).
    rewrite E. lra.
  - change (inject_Z 1) with 1 in Hx.
    assert (E : Qltb x 0 = true) by (apply Qltb_lt; lra).
    rewrite E. lra.
Qed.

(** ** Arrays and loops *)

Lemma getitem_ok (a : list Q) (i : nat) (x : Q) :
  a !! i = Some x -> getitem a i = Ok x.
Proof. unfold getitem. intros ->. reflexivity. Qed.

Lemma getitem_default (a : list Q) (i : nat) :
  (i < length a)%nat -> getitem a i = Ok (default 0 (a !! i)).
Proof.
  intros H. destruct (lookup_lt_is_Some_2 a i H) as [x Hx].
  rewrite (getitem_ok _ _ _ Hx), Hx. reflexivity.
Qed.

Lemma setitem_ok (a : list Q) (i : nat) (x : Q) :
  (i < length a)%nat -> setitem a i x = Ok (<[i:=x]> a).
Proof.
  intros H. unfold setitem.
  destruct (Nat.ltb_spec i (length a)); [reflexivity | lia].
Qed.

Lemma map_seq_snoc {A : Type} (f : nat -> A) (j : nat) :
  map f (seq 0 (S j)) = map f (seq 0 j) ++ [f j].
Proof. rewrite seq_S, map_app. reflexivity. Qed.

Lemma length_map_seq {A : Type} (f : nat -> A) (j : nat) :
  length (map f (seq 0 j)) = j.
Proof. rewrite length_map, length_seq. reflexivity. Qed.

(** Writing entry [j] of an array whose first [j] entries are done. *)
Lemma insert_done_drop (f : nat -> Q) (j : nat) (l : list Q) (x : Q) :
  (j < length l)%nat ->
  <[j:=x]> (map f (seq 0 j) ++ drop j l) = map f (seq 0 j) ++ x :: drop (S j) l.
Proof.
  intros H.
  rewrite insert_app_r_alt by (rewrite length_map_seq; lia).
  rewrite length_map_seq, Nat.sub_diag.
  destruct (lookup_lt_is_Some_2 l j H) as [y Hy].
  rewrite (drop_S l y j Hy). reflexivity.
Qed.

Lemma length_done_drop (f : nat -> Q) (j : nat) (l : list Q) :
  (j <= length l)%nat -> length (map f (seq 0 j) ++ drop j l) = length l.
Proof.
  intros H. rewrite length_app, length_map_seq, length_drop. lia.
Qed.

Lemma lookup_map_seq {A : Type} (f : nat -> A) (n i : nat) :
  (i < n)%nat -> map f (seq 0 n) !! i = Some (f i).
Proof.
  intros H. change (map f (seq 0 n)) with (f <$> seq 0 n).
  rewrite list_lookup_fmap, lookup_seq_lt by assumption. reflexivity.
Qed.

(** A loop over [range(n)] that keeps an invariant runs to its end. *)
Lemma for_in_seq_invariant {S : Type} (I : nat -> S -> Prop)
    (body : nat -> S -> result S) (n a : nat) (st : S) :
  I a st ->
  (forall j st1, (a <= j < a + n)%nat -> I j st1 ->
     exists st2, body j st1 = Ok st2 /\ I (Datatypes.S j) st2) ->
  exists st', for_in (seq a n) body st = Ok st' /\ I (a + n)%nat st'.
Proof.
  revert a st. induction n as [|n IH]; intros a st Ha Hstep.
  - exists st. rewrite Nat.add_0_r. split; [reflexivity | assumption].
  - destruct (Hstep a st ltac:(lia) Ha) as (st2 & Hb & HI).
    destruct (IH (Datatypes.S a) st2 HI) as (st' & Hrun & HI').
    { intros j st1 Hj. apply Hstep. lia. }
    exists st'. split.
    + simpl. rewrite Hb. exact Hrun.
    + replace (a + Datatypes.S n)%nat with (Datatypes.S a + n)%nat by lia. exact HI'.
Qed.

Lemma for_range_invariant {S : Type} (I : nat -> S -> Prop)
    (body : nat -> S -> result S) (n : nat) (st : S) :
  I O st ->
  (forall j st1, (j < n)%nat -> I j st1 ->
     exists st2, body j st1 = Ok st2 /\ I (Datatypes.S j) st2) ->
  exists st', for_range n body st = Ok st' /\ I n st'.
Proof.
  intros H0 Hstep.
  apply (for_in_seq_invariant I body n 0 st H0).
  intros j st1 Hj. apply Hstep. lia.
Qed.

(** ** The methods on a well-formed object *)

Lemma leader_lt (sim : self) (i : nat) : (i < N sim)%nat -> (leader sim i < N sim)%nat.
Proof. intros H. unfold leader. apply Nat.mod_upper_bound. lia. Qed.

Lemma leader_index_ok (sim : self) (i : nat) :
  (i < N sim)%nat -> leader_index sim i = Ok (leader sim i).
Proof.
  intros H. unfold leader_index, int_mod, leader.
  destruct (N sim); [lia | reflexivity].
Qed.

Lemma leader_follower (sim : self) (i : nat) :
  (0 < i < N sim)%nat -> leader sim i = (i - 1)%nat.
Proof.
  intros H. unfold leader.
  replace (i + N sim - 1)%nat with ((i - 1) + 1 * N sim)%nat by lia.
  rewrite Nat.Div0.mod_add. apply Nat.mod_small. lia.
Qed.

Lemma getitem_pos (sim : self) (i : nat) :
  wf sim -> (i < N sim)%nat -> getitem (s sim) i = Ok (pos sim i).
Proof. intros [Hs _] H. apply getitem_default. lia. Qed.

Lemma getitem_vel (sim : self) (i : nat) :
  wf sim -> (i < N sim)%nat -> getitem (v sim) i = Ok (vel sim i).
Proof. intros [_ Hv] H. apply getitem_default. lia. Qed.

Lemma get_gap_ok (sim : self) (i : nat) :
  wf sim -> (i < N sim)%nat -> get_gap sim i (s sim) = Ok (gap sim i).
Proof.
  intros Hwf H. unfold get_gap.
  rewrite (leader_index_ok sim i H). simpl.
  rewrite (getitem_pos sim _ Hwf (leader_lt sim i H)). simpl.
  rewrite (getitem_pos sim i Hwf H). reflexivity.
Qed.

Lemma idm_accel_ok (sim : self) (v_curr v_leader g : Q) :
  0 <= A_MAX sim * B_DECEL sim ->
  idm_accel sim v_curr v_leader g = Ok (idm sim v_curr v_leader g).
Proof.
  intros H. unfold idm_accel, sqrt.
  apply Qltb_ge in H. rewrite H. reflexivity.
Qed.

Lemma accel_loop (sim : self) (stopped : bool) :
  wf sim ->
  ((N sim <= 1)%nat \/ 0 <= A_MAX sim * B_DECEL sim) ->
  for_range (N sim) (accel_body sim stopped) (Locals (s sim) (v sim) (zeros (N sim)))
  = Ok (Locals (s sim) (v_after_accel sim stopped (N sim))
               (map (acceleration sim stopped) (seq 0 (N sim)))).
Proof.
  intros Hwf Hvalid.
  pose (I := fun (j : nat) (loc : locals) =>
    (j <= N sim)%nat /\
    loc = Locals (s sim) (v_after_accel sim stopped j)
                 (map (acceleration sim stopped) (seq 0 j) ++ drop j (zeros (N sim)))).
  destruct (for_range_invariant I (accel_body sim stopped) (N sim)
              (Locals (s sim) (v sim) (zeros (N sim)))) as (loc & Hrun & _ & Hloc).
  - split; [lia | reflexivity].
  - intros j loc Hj [_ ->].
    assert (Hlen : (j < length (zeros (N sim)))%nat)
      by (unfold zeros; rewrite repeat_length; exact Hj).
    assert (Hset : forall a,
      setitem (map (acceleration sim stopped) (seq 0 j) ++ drop j (zeros (N sim))) j a
      = Ok (map (acceleration sim stopped) (seq 0 j) ++ a :: drop (Datatypes.S j) (zeros (N sim)))).
    { intros a. rewrite setitem_ok by (rewrite length_done_drop; lia).
      rewrite insert_done_drop by exact Hlen. reflexivity. }
    assert (Hnext : forall loc',
      loc' = Locals (s sim) (v_after_accel sim stopped (Datatypes.S j))
               (map (acceleration sim stopped) (seq 0 j)
                ++ acceleration sim stopped j :: drop (Datatypes.S j) (zeros (N sim))) ->
      I (Datatypes.S j) loc').
    { intros loc' ->. split; [lia|]. rewrite map_seq_snoc, <- app_assoc. reflexivity. }
    unfold accel_body. destruct j as [|j].
    + (* the leader *)
      simpl Nat.eqb. cbv iota.
      rewrite (getitem_vel sim 0 Hwf Hj). simpl bind.
      change (v_after_accel sim stopped 0) with (v sim).
      destruct stopped.
      * destruct (Qltb 0 (vel sim 0)) eqn:Epos; simpl accel; simpl v_new.
        -- rewrite Hset. eexists. split; [reflexivity|]. apply Hnext.
           unfold v_after_accel, pinned. rewrite Epos. simpl. rewrite Epos. reflexivity.
        -- rewrite Hset. simpl bind.
           rewrite setitem_ok by (destruct Hwf; lia).
           eexists. split; [reflexivity|]. apply Hnext.
           unfold v_after_accel, pinned. rewrite Epos. simpl. rewrite Epos. reflexivity.
      * simpl accel. rewrite Hset. eexists. split; [reflexivity|]. apply Hnext.
        reflexivity.
    + (* a follower *)
      simpl Nat.eqb. cbv iota.
      rewrite (leader_index_ok sim _ Hj). simpl bind.
      rewrite (get_gap_ok sim _ Hwf Hj). simpl bind.
      rewrite (getitem_vel sim _ Hwf Hj). simpl bind.
      rewrite (getitem_vel sim _ Hwf (leader_lt sim _ Hj)). simpl bind.
      rewrite idm_accel_ok by (destruct Hvalid; [lia | assumption]). simpl bind.
      simpl accel. rewrite Hset. eexists. split; [reflexivity|]. apply Hnext.
      unfold v_after_accel. simpl. reflexivity.
  - rewrite Hrun, Hloc. f_equal. f_equal.
    rewrite drop_ge by (unfold zeros; rewrite repeat_length; lia).
    apply app_nil_r.
Qed.

Lemma setitem_middle (l1 l2 : list Q) (x y : Q) (j : nat) :
  j = length l1 -> setitem (l1 ++ x :: l2) j y = Ok (l1 ++ y :: l2).
Proof.
  intros ->. rewrite setitem_ok by (rewrite length_app; simpl; lia).
  rewrite insert_app_r_alt by lia. rewrite Nat.sub_diag. reflexivity.
Qed.

Lemma getitem_middle (l1 l2 : list Q) (x : Q) (j : nat) :
  j = length l1 -> getitem (l1 ++ x :: l2) j = Ok x.
Proof. intros H. apply getitem_ok, list_lookup_middle, H. Qed.

Lemma setitem_done_drop (f : nat -> Q) (j : nat) (l : list Q) (x : Q) :
  (j < length l)%nat ->
  setitem (map f (seq 0 j) ++ drop j l) j x = Ok (map f (seq 0 j) ++ x :: drop (S j) l).
Proof.
  intros H. rewrite setitem_ok by (rewrite length_done_drop; lia).
  rewrite insert_done_drop by exact H. reflexivity.
Qed.

Lemma length_v_after_accel (sim : self) (stopped : bool) (j : nat) :
  length (v_after_accel sim stopped j) = length (v sim).
Proof.
  unfold v_after_accel. destruct (_ && _); [apply length_insert | reflexivity].
Qed.

Lemma euler_loop (sim : self) (stopped : bool) :
  wf sim ->
  for_range (N sim) (euler_body sim stopped)
    (Locals (s sim) (v_after_accel sim stopped (N sim))
            (map (acceleration sim stopped) (seq 0 (N sim))))
  = Ok (Locals (map (next_position sim stopped) (seq 0 (N sim)))
               (map (next_velocity sim stopped) (seq 0 (N sim)))
               (map (acceleration sim stopped) (seq 0 (N sim)))).
Proof.
  intros Hwf.
  set (v1 := v_after_accel sim stopped (N sim)).
  set (acc := map (acceleration sim stopped) (seq 0 (N sim))).
  pose (I := fun (j : nat) (loc : locals) =>
    (j <= N sim)%nat /\
    loc = Locals (map (next_position sim stopped) (seq 0 j) ++ drop j (s sim))
                 (map (next_velocity sim stopped) (seq 0 j) ++ drop j v1) acc).
  assert (Hlv1 : length v1 = N sim).
  { unfold v1. rewrite length_v_after_accel. apply Hwf. }
  destruct (for_range_invariant I (euler_body sim stopped) (N sim)
              (Locals (s sim) v1 acc)) as (loc & Hrun & _ & Hloc).
  - split; [lia | reflexivity].
  - intros j loc Hj [_ ->].
    assert (Hnext : forall loc',
      loc' = Locals (map (next_position sim stopped) (seq 0 j)
                     ++ next_position sim stopped j :: drop (Datatypes.S j) (s sim))
                    (map (next_velocity sim stopped) (seq 0 j)
                     ++ next_velocity sim stopped j :: drop (Datatypes.S j) v1) acc ->
      I (Datatypes.S j) loc').
    { intros loc' ->. split; [lia|]. rewrite !map_seq_snoc, <- !app_assoc. reflexivity. }
    assert (Hacc : getitem acc j = Ok (acceleration sim stopped j)).
    { apply getitem_ok. unfold acc. apply lookup_map_seq, Hj. }
    assert (Hs : (j < length (s sim))%nat) by (destruct Hwf; lia).
    assert (Hv : (j < length v1)%nat) by lia.
    remember (Locals (map (next_position sim stopped) (seq 0 j) ++ drop j (s sim))
                       (map (next_velocity sim stopped) (seq 0 j) ++ drop j v1) acc)
      as loc eqn:Eloc.
    (* the update of a vehicle that is not skipped *)
    assert (Hupd : skip_test stopped j loc = Ok false ->
      euler_body sim stopped j loc
      = Ok (Locals
          (map (next_position sim stopped) (seq 0 j)
           ++ Qmod (pos sim j + (if (j =? 0)%nat then euler_velocity sim stopped j
                                 else next_velocity sim stopped j) * DT sim) (CIRC sim)
              :: drop (Datatypes.S j) (s sim))
          (map (next_velocity sim stopped) (seq 0 j)
           ++ (if (j =? 0)%nat then euler_velocity sim stopped j
               else next_velocity sim stopped j) :: drop (Datatypes.S j) v1) acc)).
    { intros Hskip. unfold euler_body. rewrite Hskip. rewrite Eloc.
      cbn [bind s_new v_new accel].
      rewrite (getitem_vel sim j Hwf Hj). cbn [bind].
      rewrite Hacc. cbn [bind].
      rewrite setitem_done_drop by exact Hv. cbn [bind].
      rewrite (getitem_pos sim j Hwf Hj). cbn [bind].
      rewrite getitem_middle by (rewrite length_map_seq; reflexivity). cbn [bind].
      rewrite setitem_done_drop by exact Hs. cbn [bind].
      fold (euler_velocity sim stopped j). unfold np_remainder.
      destruct (Nat.eqb_spec j 0) as [Hj0|Hj0]; [reflexivity|].
      cbn [negb].
      rewrite (get_gap_ok sim _ Hwf Hj). cbn [bind].
      assert (Hnv : next_velocity sim stopped j
                    = if Qltb (gap sim j - 0.5) (euler_velocity sim stopped j * DT sim)
                      then py_max 0 ((gap sim j - 0.5) / DT sim)
                      else euler_velocity sim stopped j).
      { destruct j; [congruence | reflexivity]. }
      rewrite Hnv.
      destruct (Qltb (gap sim j - 0.5) (euler_velocity sim stopped j * DT sim)); [|reflexivity].
      rewrite setitem_middle by (rewrite length_map_seq; reflexivity). cbn [bind].
      rewrite getitem_middle by (rewrite length_map_seq; reflexivity). cbn [bind].
      rewrite setitem_middle by (rewrite length_map_seq; reflexivity). reflexivity. }
    assert (Hfollow : (0 < j)%nat -> skip_test stopped j loc = Ok false).
    { intros H0. unfold skip_test.
      destruct (Nat.eqb_spec j 0); [lia | reflexivity]. }
    destruct j as [|j].
    + (* the leader *)
      assert (Hget : getitem (v_new loc) 0 = Ok (default 0 (v1 !! O))).
      { rewrite Eloc. cbn [v_new].
        change (map (next_velocity sim stopped) (seq 0 0) ++ drop 0 v1) with v1.
        apply getitem_default. exact Hv. }
      destruct (pinned sim stopped) eqn:Epin.
      * (* pinned: the first loop stored 0 and the vehicle is skipped *)
        assert (Hv10 : v1 = 0 :: drop 1 (v sim)).
        { unfold v1, v_after_accel. rewrite Epin.
          destruct (N sim) eqn:EN; [lia|]. simpl.
          destruct (v sim) as [|x l] eqn:Ev;
            [destruct Hwf as [_ Hl]; rewrite Ev in Hl; simpl in Hl; lia|].
          reflexivity. }
        assert (Hskip : skip_test stopped 0 loc = Ok true).
        { unfold skip_test. simpl Nat.eqb. cbv iota.
          unfold pinned in Epin. apply andb_true_iff in Epin as [-> _].
          rewrite Hget, Hv10. reflexivity. }
        unfold euler_body. rewrite Hskip. cbn [bind].
        eexists. split; [reflexivity|]. apply Hnext.
        rewrite Eloc. unfold next_position, next_velocity. rewrite Epin. simpl.
        f_equal.
        -- destruct (s sim) as [|x l] eqn:Es; [simpl in Hs; lia|].
           unfold pos. rewrite Es. reflexivity.
        -- rewrite Hv10. reflexivity.
      * assert (Hv10 : v1 = v sim).
        { unfold v1, v_after_accel. rewrite Epin, andb_false_r. reflexivity. }
        assert (Hskip : skip_test stopped 0 loc = Ok false).
        { unfold skip_test. simpl Nat.eqb. cbv iota.
          destruct stopped; [|reflexivity].
          rewrite Hget, Hv10. cbn [bind]. fold (vel sim 0).
          unfold pinned in Epin. simpl in Epin. apply negb_false_iff in Epin.
          destruct (Qeq_bool (vel sim 0) 0) eqn:E; [|reflexivity].
          apply Qeq_bool_iff in E. apply Qltb_lt in Epin. rewrite E in Epin.
          exfalso. revert Epin. apply Qlt_irrefl. }
        rewrite (Hupd Hskip).
        eexists. split; [reflexivity|]. apply Hnext.
        unfold next_position, next_velocity. rewrite Epin. reflexivity.
    + (* a follower *)
      rewrite (Hupd (Hfollow (Nat.lt_0_succ j))).
      eexists. split; [reflexivity|]. apply Hnext. reflexivity.
  - rewrite Hrun, Hloc. f_equal.
    f_equal; rewrite drop_ge by (destruct Hwf; lia); apply app_nil_r.
Qed.

(** ** The leader's schedule and the step as a whole *)

Lemma leader_stopped_before (sim : self) (t : Q) :
  t < FIRST_STOP sim -> leader_stopped sim t = Ok false.
Proof.
  intros H. unfold leader_stopped.
  destruct (Qle_bool 0 (t - FIRST_STOP sim)) eqn:E; [|reflexivity].
  apply Qle_bool_iff in E. lra.
Qed.

Lemma leader_stopped_from (sim : self) (t : Q) :
  FIRST_STOP sim <= t -> ~ REPEAT_INTERVAL sim == 0 ->
  leader_stopped sim t
  = Ok (Qltb (Qmod (t - FIRST_STOP sim) (REPEAT_INTERVAL sim)) (STOP_DURATION sim)).
Proof.
  intros H Hri. unfold leader_stopped, float_mod.
  assert (E : Qle_bool 0 (t - FIRST_STOP sim) = true) by (apply Qle_bool_iff; lra).
  rewrite E.
  destruct (Qeq_bool (REPEAT_INTERVAL sim) 0) eqn:E0; [|reflexivity].
  apply Qeq_bool_iff in E0. contradiction.
Qed.

Lemma leader_stopped_total (sim : self) (t : Q) :
  ~ REPEAT_INTERVAL sim == 0 -> exists b, leader_stopped sim t = Ok b.
Proof.
  intros Hri. destruct (Qlt_le_dec t (FIRST_STOP sim)) as [H|H].
  - exists false. apply leader_stopped_before, H.
  - eexists. apply leader_stopped_from; assumption.
Qed.

(** The loops of [run_step] compute the per-vehicle step. *)
Lemma run_step_refines (sim : self) (t : Q) (stopped : bool) :
  wf sim ->
  ((N sim <= 1)%nat \/ 0 <= A_MAX sim * B_DECEL sim) ->
  leader_stopped sim t = Ok stopped ->
  run_step sim t = Ok (step_spec sim stopped).
Proof.
  intros Hwf Hvalid Hstop. unfold run_step.
  rewrite Hstop. cbn [bind].
  rewrite (accel_loop sim stopped Hwf Hvalid). cbn [bind].
  rewrite (euler_loop sim stopped Hwf). reflexivity.
Qed.

Lemma run_step_total (sim : self) (t : Q) :
  wf sim -> valid sim ->
  exists stopped, leader_stopped sim t = Ok stopped
                  /\ run_step sim t = Ok (step_spec sim stopped).
Proof.
  intros Hwf [Hri Hab].
  destruct (leader_stopped_total sim t Hri) as [b Hb].
  exists b. split; [exact Hb|].
  apply run_step_refines; auto.
Qed.

Lemma step_spec_wf (sim : self) (stopped : bool) : wf (step_spec sim stopped).
Proof. split; simpl; apply length_map_seq. Qed.

Lemma step_spec_valid (sim : self) (stopped : bool) :
  valid sim -> valid (step_spec sim stopped).
Proof. intros H. exact H. Qed.

Lemma step_spec_pos (sim : self) (stopped : bool) (i : nat) :
  (i < N sim)%nat ->
  s (step_spec sim stopped) !! i = Some (next_position sim stopped i).
Proof. intros H. simpl. apply lookup_map_seq, H. Qed.

Lemma step_spec_vel (sim : self) (stopped : bool) (i : nat) :
  (i < N sim)%nat ->
  v (step_spec sim stopped) !! i = Some (next_velocity sim stopped i).
Proof. intros H. simpl. apply lookup_map_seq, H. Qed.

Lemma run_step_wf (sim sim' : self) (t : Q) :
  wf sim -> valid sim -> run_step sim t = Ok sim' ->
  wf sim' /\ valid sim' /\ N sim' = N sim /\ CIRC sim' = CIRC sim.
Proof.
  intros Hwf Hv Hrun.
  destruct (run_step_total sim t Hwf Hv) as (b & _ & Hb).
  rewrite Hb in Hrun. injection Hrun as <-.
  split; [apply step_spec_wf|]. split; [apply step_spec_valid, Hv|].
  split; reflexivity.
Qed.

Lemma run_steps_total (sim : self) (ts : list Q) :
  wf sim -> valid sim -> exists sim', run_steps sim ts = Ok sim'.
Proof.
  revert sim. induction ts as [|t ts IH]; intros sim Hwf Hv.
  - exists sim. reflexivity.
  - destruct (run_step_total sim t Hwf Hv) as (b & _ & Hb).
    destruct (IH (step_spec sim b) (step_spec_wf sim b) (step_spec_valid sim b Hv))
      as [sim' Hrun].
    exists sim'. simpl. rewrite Hb. exact Hrun.
Qed.

(** An invariant of [run_step] holds after any sequence of steps. *)
Lemma run_steps_invariant (P : self -> Prop) :
  (forall sim t sim', wf sim -> valid sim -> P sim -> run_step sim t = Ok sim' -> P sim') ->
  forall ts sim sim', wf sim -> valid sim -> P sim -> run_steps sim ts = Ok sim' -> P sim'.
Proof.
  intros Hstep. induction ts as [|t ts IH]; intros sim sim' Hwf Hv HP Hrun.
  - injection Hrun as <-. exact HP.
  - simpl in Hrun. destruct (run_step sim t) as [sim1|e] eqn:E; [|discriminate].
    cbn [bind] in Hrun.
    destruct (run_step_wf sim sim1 t Hwf Hv E) as (Hwf1 & Hv1 & _).
    apply (IH sim1 sim' Hwf1 Hv1); [|exact Hrun].
    apply (Hstep sim t sim1); assumption.
Qed.

Lemma init_wf (n : nat) (circ dt sim_time l_vehicle s0 v0 a_max b_decel
                t_headway stop_duration first_stop repeat_interval : Q) :
  wf (init n circ dt sim_time l_vehicle s0 v0 a_max b_decel t_headway
           stop_duration first_stop repeat_interval).
Proof.
  split; simpl.
  - unfold linspace. rewrite length_map, length_seq. reflexivity.
  - unfold ones. rewrite length_map, repeat_length. reflexivity.
Qed.

Lemma next_velocity_follower (sim : self) (stopped : bool) (i : nat) :
  (0 < i)%nat -> next_velocity sim stopped i = follower_velocity sim i.
Proof. intros H. destruct i; [lia | reflexivity]. Qed.

Lemma next_position_follower (sim : self) (stopped : bool) (i : nat) :
  (0 < i)%nat -> next_position sim stopped i = follower_position sim i.
Proof. intros H. destruct i; [lia | reflexivity]. Qed.

Lemma next_velocity_nonneg (sim : self) (stopped : bool) (i : nat) :
  0 <= next_velocity sim stopped i.
Proof.
  destruct i as [|i]; simpl.
  - destruct (pinned sim stopped); [apply Qle_refl | apply py_max_lower].
  - destruct (Qltb _ _); apply py_max_lower.
Qed.

(** ** The safeguard bounds a follower's displacement *)




(** C4.  After every call of [run_step] each vehicle's velocity is
    non-negative. *)
Theorem velocity_nonnegative (sim : self) (t : Q) :
  wf sim -> valid sim ->
  exists sim',
    run_step sim t = Ok sim'
    /\ forall i, (i < N sim)%nat -> exists x, v sim' !! i = Some x /\ 0 <= x.
Proof.
  intros Hwf Hv.
  destruct (run_step_total sim t Hwf Hv) as (b & _ & Hrun).
  exists (step_spec sim b). split; [exact Hrun|].
  intros i Hi. exists (next_velocity sim b i).
  split; [apply step_spec_vel, Hi | apply next_velocity_nonneg].
Qed.

(** C5.  [leader_stopped t] is false for every [t < FIRST_STOP]; for
    [t >= FIRST_STOP] it is true exactly when
    [(t - FIRST_STOP) mod REPEAT_INTERVAL < STOP_DURATION]. *)
Theorem leader_stopped_schedule (sim : self) (t : Q) :
  ~ REPEAT_INTERVAL sim == 0 ->
  (t < FIRST_STOP sim -> leader_stopped sim t = Ok false)
  /\ (FIRST_STOP sim <= t ->
      exists b, leader_stopped sim t = Ok b
                /\ (b = true <->
                    Qmod (t - FIRST_STOP sim) (REPEAT_INTERVAL sim) < STOP_DURATION sim)).
Proof.
  intros Hri. split.
  - apply leader_stopped_before.
  - intros Ht. eexists. split.
    + apply leader_stopped_from; assumption.
    + apply Qltb_lt.
Qed.

(** C8.  When the leader is commanded to stop and its velocity is 0
    before the step, then after the step its velocity is exactly 0 and its
    position is the one it had, and every other vehicle has made its
    usual follower update. *)
Theorem pinned_leader_frame (sim : self) (t : Q) (v0 : Q) :
  wf sim -> valid sim ->
  leader_stopped sim t = Ok true ->
  v sim !! O = Some v0 -> v0 == 0 ->
  exists sim',
    run_step sim t = Ok sim'
    /\ v sim' !! O = Some 0
    /\ s sim' !! O = s sim !! O
    /\ forall i, (0 < i < N sim)%nat ->
         s sim' !! i = Some (follower_position sim i)
         /\ v sim' !! i = Some (follower_velocity sim i).
Proof.
  intros Hwf Hv Hstop H0 Hzero.
  assert (HN : (0 < N sim)%nat).
  { destruct Hwf as [_ Hl]. rewrite <- Hl. apply lookup_lt_Some in H0. exact H0. }
  assert (Hpin : pinned sim true = true).
  { unfold pinned, vel. rewrite H0. simpl.
    apply negb_true_iff, Qltb_ge. rewrite Hzero. apply Qle_refl. }
  exists (step_spec sim true).
  split; [apply run_step_refines; [exact Hwf | right; apply Hv | exact Hstop]|].
  split; [|split].
  - rewrite step_spec_vel by exact HN. unfold next_velocity. rewrite Hpin. reflexivity.
  - rewrite step_spec_pos by exact HN. unfold next_position. rewrite Hpin.
    unfold pos. destruct Hwf as [Hl _].
    destruct (lookup_lt_is_Some_2 (s sim) 0) as [x Hx]; [lia|].
    rewrite Hx. reflexivity.
  - intros i [Hi0 Hi]. split.
    + rewrite step_spec_pos by exact Hi. f_equal. apply next_position_follower, Hi0.
    + rewrite step_spec_vel by exact Hi. f_equal. apply next_velocity_follower, Hi0.
Qed.

(** C10.  Two states with the same parameters that agree on vehicle 0's
    position and velocity give vehicle 0 the same position and velocity
    after [run_step t], whatever the other vehicles' states are. *)
Theorem leader_independent_of_followers (sim1 sim2 : self) (t : Q) :
  wf sim1 -> wf sim2 -> valid sim1 ->
  parameters sim1 = parameters sim2 ->
  s sim1 !! O = s sim2 !! O -> v sim1 !! O = v sim2 !! O ->
  exists sim1' sim2',
    run_step sim1 t = Ok sim1' /\ run_step sim2 t = Ok sim2'
    /\ s sim1' !! O = s sim2' !! O /\ v sim1' !! O = v sim2' !! O.
Proof.
  intros Hwf1 Hwf2 Hv1 Hpar Hs Hv.
  assert (HN : N sim1 = N sim2) by exact (f_equal N Hpar).
  assert (HC : CIRC sim1 = CIRC sim2) by exact (f_equal CIRC Hpar).
  assert (HD : DT sim1 = DT sim2) by exact (f_equal DT Hpar).
  assert (HV0 : V0 sim1 = V0 sim2) by exact (f_equal V0 Hpar).
  assert (HA : A_MAX sim1 = A_MAX sim2) by exact (f_equal A_MAX Hpar).
  assert (HB : B_DECEL sim1 = B_DECEL sim2) by exact (f_equal B_DECEL Hpar).
  assert (HF : FIRST_STOP sim1 = FIRST_STOP sim2) by exact (f_equal FIRST_STOP Hpar).
  assert (HR : REPEAT_INTERVAL sim1 = REPEAT_INTERVAL sim2)
    by exact (f_equal REPEAT_INTERVAL Hpar).
  assert (HSD : STOP_DURATION sim1 = STOP_DURATION sim2)
    by exact (f_equal STOP_DURATION Hpar).
  assert (Hv2 : valid sim2) by (unfold valid; rewrite <- HR, <- HA, <- HB; exact Hv1).
  destruct (run_step_total sim1 t Hwf1 Hv1) as (b1 & Hb1 & Hrun1).
  destruct (run_step_total sim2 t Hwf2 Hv2) as (b2 & Hb2 & Hrun2).
  assert (Hb : b1 = b2).
  { unfold leader_stopped in Hb1, Hb2. rewrite HF, HR, HSD in Hb1. congruence. }
  subst b2.
  exists (step_spec sim1 b1), (step_spec sim2 b1).
  split; [exact Hrun1|]. split; [exact Hrun2|].
  assert (Hpos : pos sim1 0 = pos sim2 0) by (unfold pos; rewrite Hs; reflexivity).
  assert (Hvel : vel sim1 0 = vel sim2 0) by (unfold vel; rewrite Hv; reflexivity).
  assert (Hpin : pinned sim1 b1 = pinned sim2 b1) by (unfold pinned; rewrite Hvel; reflexivity).
  assert (Hnv : next_velocity sim1 b1 0 = next_velocity sim2 b1 0).
  { unfold next_velocity, euler_velocity, acceleration.
    rewrite Hpin, Hvel, HD, HA, HV0. reflexivity. }
  destruct (N sim1) as [|n] eqn:EN.
  - simpl. rewrite <- HN, EN. split; reflexivity.
  - split.
    + rewrite !step_spec_pos by lia. f_equal.
      unfold next_position. rewrite Hnv, Hpin, Hpos, HD, HC. reflexivity.
    + rewrite !step_spec_vel by lia. f_equal. exact Hnv.
Qed.

(** ** Positions stay on the ring *)

Lemma fresh_wf (sim : self) : fresh sim -> wf sim.
Proof.
  intros [Hs Hv]. split.
  - rewrite Hs. unfold linspace. rewrite length_map, length_seq. reflexivity.
  - rewrite Hv. unfold ones. rewrite length_map, repeat_length. reflexivity.
Qed.

Lemma linspace_in_ring (circ : Q) (n i : nat) (x : Q) :
  0 < circ -> linspace 0 circ n !! i = Some x -> 0 <= x /\ x < circ.
Proof.
  intros Hc Hx. unfold linspace in Hx.
  change (map ?f ?l) with (f <$> l) in Hx.
  rewrite list_lookup_fmap in Hx.
  destruct (seq 0 n !! i) as [j|] eqn:Ej; [|discriminate].
  apply lookup_seq in Ej as [-> Hi]. simpl in Hx. injection Hx as <-.
  set (k := inject_Z (Z.of_nat i)). set (m := inject_Z (Z.of_nat n)).
  assert (Hk : 0 <= k).
  { unfold k. change 0 with (inject_Z 0). rewrite <- Zle_Qle. lia. }
  assert (Hkm : k < m).
  { unfold k, m. rewrite <- Zlt_Qlt. lia. }
  assert (Hm : 0 < m) by lra.
  assert (Hm0 : ~ m == 0) by (intros E; rewrite E in Hm; revert Hm; apply Qlt_irrefl).
  assert (Hq : k * ((circ - 0) / m) + 0 == (k * circ) / m) by (field; exact Hm0).
  rewrite Hq. split.
  - apply Qle_shift_div_l; [exact Hm|].
    assert (0 <= k * circ) by (apply Qmult_le_0_compat; lra). lra.
  - apply Qlt_shift_div_r; [exact Hm|].
    rewrite (Qmult_comm circ m). apply Qmult_lt_compat_r; assumption.
Qed.

Lemma fresh_in_ring (sim : self) : fresh sim -> 0 < CIRC sim -> in_ring sim.
Proof.
  intros [Hs _] Hc i x Hx. rewrite Hs in Hx.
  exact (linspace_in_ring _ _ _ _ Hc Hx).
Qed.

Lemma lookup_pos (sim : self) (i : nat) :
  wf sim -> (i < N sim)%nat -> s sim !! i = Some (pos sim i).
Proof.
  intros [Hl _] Hi. unfold pos.
  destruct (lookup_lt_is_Some_2 (s sim) i) as [x Hx]; [lia|].
  rewrite Hx. reflexivity.
Qed.



(** ** A ring with a single vehicle *)

Lemma leader_single (sim : self) : N sim = 1%nat -> leader sim 0 = O.
Proof. intros H. unfold leader. rewrite H. reflexivity. Qed.

Lemma gap_single (sim : self) : N sim = 1%nat -> gap sim 0 == - L_VEHICLE sim.
Proof.
  intros H. unfold gap, dist. rewrite (leader_single sim H).
  assert (E : Qltb (pos sim 0 - pos sim 0) 0 = false) by (apply Qltb_ge; lra).
  rewrite E. ring.
Qed.

(** C7, as the code has it.  With [N = 1] the vehicle is its own leader,
    its distance to itself is 0 and is not wrapped, so [get_gap] returns
    [- L_VEHICLE], before and after a step; [run_step] returns without
    raising. *)
Theorem single_vehicle_gap (sim : self) (t : Q) :
  N sim = 1%nat -> wf sim -> ~ REPEAT_INTERVAL sim == 0 ->
  exists g sim' g',
    get_gap sim 0 (s sim) = Ok g /\ g == - L_VEHICLE sim
    /\ run_step sim t = Ok sim'
    /\ get_gap sim' 0 (s sim') = Ok g' /\ g' == - L_VEHICLE sim.
Proof.
  intros HN Hwf Hri.
  destruct (leader_stopped_total sim t Hri) as [b Hb].
  exists (gap sim 0), (step_spec sim b), (gap (step_spec sim b) 0).
  split; [apply get_gap_ok; [exact Hwf | lia]|].
  split; [apply gap_single, HN|].
  split; [apply run_step_refines; [exact Hwf | left; lia | exact Hb]|].
  split.
  - apply get_gap_ok; [apply step_spec_wf | simpl; lia].
  - apply (gap_single (step_spec sim b)). exact HN.
Qed.

(** ** Construction and drivers *)

Lemma init_fresh (n : nat) (circ dt sim_time l_vehicle s0 v0 a_max b_decel
                   t_headway stop_duration first_stop repeat_interval : Q) :
  fresh (init n circ dt sim_time l_vehicle s0 v0 a_max b_decel t_headway
              stop_duration first_stop repeat_interval).
Proof. split; reflexivity. Qed.


Lemma self_ext (sim1 sim2 : self) :
  parameters sim1 = parameters sim2 -> s sim1 = s sim2 -> v sim1 = v sim2 ->
  sim1 = sim2.
Proof.
  destruct sim1, sim2. unfold parameters, assign. simpl.
  intros Hp -> ->. injection Hp. intros. subst. reflexivity.
Qed.


(** ** Gaps after a step *)

Lemma dist_bounds (sim : self) (i : nat) :
  wf sim -> in_ring sim -> (i < N sim)%nat ->
  0 <= dist sim i /\ dist sim i < CIRC sim
  /\ exists e : Z, dist sim i == pos sim (leader sim i) - pos sim i + CIRC sim * inject_Z e.
Proof.
  intros Hwf Hring Hi.
  destruct (Hring _ _ (lookup_pos sim i Hwf Hi)) as [Hi0 Hi1].
  destruct (Hring _ _ (lookup_pos sim _ Hwf (leader_lt sim i Hi))) as [Hl0 Hl1].
  unfold dist.
  destruct (Qltb (pos sim (leader sim i) - pos sim i) 0) eqn:E.
  - apply Qltb_lt in E. split; [lra|]. split; [lra|].
    exists 1%Z. change (inject_Z 1) with 1. ring.
  - apply Qltb_ge in E. split; [lra|]. split; [lra|].
    exists 0%Z. change (inject_Z 0) with 0. ring.
Qed.

(** After the step every vehicle stands at its old position advanced by
    [next_velocity * DT], modulo the circumference. *)
Lemma next_position_advance (sim : self) (stopped : bool) (i : nat) :
  wf sim -> in_ring sim -> (i < N sim)%nat ->
  next_position sim stopped i
  == Qmod (pos sim i + next_velocity sim stopped i * DT sim) (CIRC sim).
Proof.
  intros Hwf Hring Hi. destruct i as [|i]; [|reflexivity].
  unfold next_position, next_velocity.
  destruct (pinned sim stopped); [|reflexivity].
  destruct (Hring _ _ (lookup_pos sim 0 Hwf Hi)) as [H0 H1].
  assert (E : pos sim 0 + 0 * DT sim == pos sim 0) by ring.
  symmetry. rewrite E. apply Qmod_small; assumption.
Qed.




(** ** Vehicle 0 alone

    A rational has many representations; the update of vehicle 0 respects
    [==] and reads nothing of the followers. *)

Lemma leader_stopped_comp (a b : self) (t : Q) :
  FIRST_STOP a == FIRST_STOP b -> REPEAT_INTERVAL a == REPEAT_INTERVAL b ->
  STOP_DURATION a == STOP_DURATION b ->
  leader_stopped a t = leader_stopped b t.
Proof.
  intros HF HR HS. unfold leader_stopped, float_mod.
  assert (Ht : t - FIRST_STOP a == t - FIRST_STOP b) by (rewrite HF; reflexivity).
  rewrite (Qleb_comp 0 0 (Qeq_refl 0) _ _ Ht).
  destruct (Qle_bool 0 (t - FIRST_STOP b)); [|reflexivity].
  rewrite (Qeqb_comp _ _ HR 0 0 (Qeq_refl 0)).
  destruct (Qeq_bool (REPEAT_INTERVAL b) 0); [reflexivity|].
  cbn [bind]. f_equal. apply Qltb_comp; [|exact HS].
  rewrite Ht, HR. reflexivity.
Qed.

Lemma pinned_comp (a b : self) (stopped : bool) :
  vel a 0 == vel b 0 -> pinned a stopped = pinned b stopped.
Proof.
  intros H. unfold pinned. f_equal. f_equal. apply Qltb_comp; [reflexivity | exact H].
Qed.



Lemma pos_step_spec (sim : self) (stopped : bool) (i : nat) :
  (i < N sim)%nat -> pos (step_spec sim stopped) i = next_position sim stopped i.
Proof. intros H. unfold pos. rewrite step_spec_pos by exact H. reflexivity. Qed.

Lemma vel_step_spec (sim : self) (stopped : bool) (i : nat) :
  (i < N sim)%nat -> vel (step_spec sim stopped) i = next_velocity sim stopped i.
Proof. intros H. unfold vel. rewrite step_spec_vel by exact H. reflexivity. Qed.






(** ** The driver loop *)


(** ** Steps respect numeric equality *)

Section NumericEquality.

Context (math_sqrt_comp : Proper (Qeq ==> Qeq) math_sqrt).

Lemma default_lookup_comp (l k : list Q) (i : nat) :
  Forall2 Qeq l k -> default 0 (l !! i) == default 0 (k !! i).
Proof.
  intros H. revert i. induction H as [|x y l k Hxy _ IH]; intros i.
  - reflexivity.
  - destruct i; simpl; [exact Hxy | apply IH].
Qed.

Lemma map_seq_comp (f g : nat -> Q) (n : nat) :
  (forall i, (i < n)%nat -> f i == g i) ->
  Forall2 Qeq (map f (seq 0 n)) (map g (seq 0 n)).
Proof.
  intros H. induction n as [|n IH].
  - constructor.
  - rewrite !map_seq_snoc. apply Forall2_app.
    + apply IH. intros i Hi. apply H. lia.
    + constructor; [apply H; lia | constructor].
Qed.

Lemma pos_comp (a b : self) (i : nat) : sim_eq a b -> pos a i == pos b i.
Proof. intros H. apply default_lookup_comp, H. Qed.

Lemma vel_comp (a b : self) (i : nat) : sim_eq a b -> vel a i == vel b i.
Proof. intros H. apply default_lookup_comp, H. Qed.

Lemma leader_comp (a b : self) (i : nat) : sim_eq a b -> leader a i = leader b i.
Proof. intros H. unfold leader. rewrite (sim_eq_N a b H). reflexivity. Qed.

Lemma dist_comp (a b : self) (i : nat) : sim_eq a b -> dist a i == dist b i.
Proof.
  intros H. unfold dist. rewrite (leader_comp a b i H).
  assert (Hd : pos a (leader b i) - pos a i == pos b (leader b i) - pos b i).
  { rewrite !(pos_comp a b _ H). reflexivity. }
  rewrite (Qltb_comp _ _ Hd 0 0 (Qeq_refl 0)).
  destruct (Qltb _ 0); rewrite Hd; [rewrite (sim_eq_CIRC a b H)|]; reflexivity.
Qed.

Lemma gap_comp (a b : self) (i : nat) : sim_eq a b -> gap a i == gap b i.
Proof.
  intros H. unfold gap. rewrite (dist_comp a b i H), (sim_eq_L_VEHICLE a b H). reflexivity.
Qed.

Lemma idm_comp (a b : self) (vc vc' vl vl' g g' : Q) :
  sim_eq a b -> vc == vc' -> vl == vl' -> g == g' ->
  idm a vc vl g == idm b vc' vl' g'.
Proof.
  intros H Hc Hl Hg. unfold idm.
  assert (Hroot : math_sqrt (A_MAX a * B_DECEL a) == math_sqrt (A_MAX b * B_DECEL b)).
  { apply math_sqrt_comp. rewrite (sim_eq_A_MAX a b H), (sim_eq_B_DECEL a b H). reflexivity. }
  rewrite Hroot, Hc, Hl, Hg.
  rewrite (sim_eq_A_MAX a b H), (sim_eq_S0 a b H), (sim_eq_V0 a b H),
          (sim_eq_T_HEADWAY a b H).
  reflexivity.
Qed.

Lemma acceleration_comp (a b : self) (stopped : bool) (i : nat) :
  sim_eq a b -> acceleration a stopped i == acceleration b stopped i.
Proof.
  intros H. destruct i as [|i]; unfold acceleration.
  - destruct stopped.
    + rewrite (Qltb_comp 0 0 (Qeq_refl 0) _ _ (vel_comp a b 0 H)). reflexivity.
    + rewrite (vel_comp a b 0 H), (sim_eq_A_MAX a b H), (sim_eq_V0 a b H). reflexivity.
  - rewrite (leader_comp a b _ H).
    apply idm_comp; [exact H | apply vel_comp, H | apply vel_comp, H | apply gap_comp, H].
Qed.

Lemma euler_velocity_comp (a b : self) (stopped : bool) (i : nat) :
  sim_eq a b -> euler_velocity a stopped i == euler_velocity b stopped i.
Proof.
  intros H. unfold euler_velocity.
  rewrite (vel_comp a b i H), (acceleration_comp a b stopped i H), (sim_eq_DT a b H).
  reflexivity.
Qed.

Lemma next_velocity_comp (a b : self) (stopped : bool) (i : nat) :
  sim_eq a b -> next_velocity a stopped i == next_velocity b stopped i.
Proof.
  intros H. destruct i as [|i]; unfold next_velocity.
  - rewrite (pinned_comp a b stopped (vel_comp a b 0 H)).
    destruct (pinned b stopped); [reflexivity | apply euler_velocity_comp, H].
  - assert (Hl : gap a (S i) - 0.5 == gap b (S i) - 0.5)
      by (rewrite (gap_comp a b _ H); reflexivity).
    assert (Hr : euler_velocity a stopped (S i) * DT a
                 == euler_velocity b stopped (S i) * DT b)
      by (rewrite (euler_velocity_comp a b _ _ H), (sim_eq_DT a b H); reflexivity).
    rewrite (Qltb_comp _ _ Hl _ _ Hr).
    destruct (Qltb _ _).
    + rewrite Hl, (sim_eq_DT a b H). reflexivity.
    + apply euler_velocity_comp, H.
Qed.

Lemma next_position_comp (a b : self) (stopped : bool) (i : nat) :
  sim_eq a b -> next_position a stopped i == next_position b stopped i.
Proof.
  intros H.
  assert (Hm : Qmod (pos a i + next_velocity a stopped i * DT a) (CIRC a)
               == Qmod (pos b i + next_velocity b stopped i * DT b) (CIRC b)).
  { rewrite (pos_comp a b i H), (next_velocity_comp a b stopped i H),
            (sim_eq_DT a b H), (sim_eq_CIRC a b H). reflexivity. }
  destruct i as [|i]; unfold next_position; [|exact Hm].
  rewrite (pinned_comp a b stopped (vel_comp a b 0 H)).
  destruct (pinned b stopped); [apply pos_comp, H | exact Hm].
Qed.

Lemma step_spec_sim_eq (a b : self) (stopped : bool) :
  sim_eq a b -> sim_eq (step_spec a stopped) (step_spec b stopped).
Proof.
  intros H. constructor; try apply H; simpl; rewrite <- (sim_eq_N a b H).
  - apply map_seq_comp. intros i _. apply next_position_comp, H.
  - apply map_seq_comp. intros i _. apply next_velocity_comp, H.
Qed.

Lemma sim_eq_wf (a b : self) : sim_eq a b -> wf a -> wf b.
Proof.
  intros H [Hs Hv]. split.
  - rewrite <- (Forall2_length _ _ _ (sim_eq_s a b H)), Hs. apply H.
  - rewrite <- (Forall2_length _ _ _ (sim_eq_v a b H)), Hv. apply H.
Qed.

Lemma sim_eq_valid (a b : self) : sim_eq a b -> valid a -> valid b.
Proof.
  intros H [Hri Hab]. split.
  - rewrite <- (sim_eq_REPEAT_INTERVAL a b H). exact Hri.
  - rewrite <- (sim_eq_A_MAX a b H), <- (sim_eq_B_DECEL a b H). exact Hab.
Qed.

Lemma run_step_sim_eq (a b : self) (t : Q) :
  sim_eq a b -> wf a -> valid a ->
  exists a' b',
    run_step a t = Ok a' /\ run_step b t = Ok b'
    /\ sim_eq a' b' /\ wf a' /\ valid a'.
Proof.
  intros H Hwf Hv.
  destruct (run_step_total a t Hwf Hv) as (st & Hst & Hrun).
  exists (step_spec a st), (step_spec b st).
  split; [exact Hrun|]. split.
  - apply run_step_refines.
    + exact (sim_eq_wf a b H Hwf).
    + right. exact (proj2 (sim_eq_valid a b H Hv)).
    + rewrite <- (leader_stopped_comp a b t); [exact Hst | apply H ..].
  - split; [apply step_spec_sim_eq, H|]. split; [apply step_spec_wf | exact Hv].
Qed.

Lemma run_trace_sim_eq (ts : list Q) (a b : self) :
  sim_eq a b -> wf a -> valid a ->
  exists tr1 tr2,
    run_trace a ts = Ok tr1 /\ run_trace b ts = Ok tr2 /\ trace_eq tr1 tr2.
Proof.
  revert a b. induction ts as [|t ts IH]; intros a b H Hwf Hv.
  - exists [], []. repeat split; constructor.
  - destruct (run_step_sim_eq a b t H Hwf Hv) as (a' & b' & Ha & Hb & H' & Hwf' & Hv').
    destruct (IH a' b' H' Hwf' Hv') as (tr1 & tr2 & H1 & H2 & Htr).
    exists ((s a', v a') :: tr1), ((s b', v b') :: tr2).
    simpl. rewrite Ha, Hb. cbn [bind]. rewrite H1, H2. cbn [bind].
    repeat split. constructor; [|exact Htr].
    split; apply H'.
Qed.

End NumericEquality.

(** C6.  Two objects with the same parameters and the same initial state,
    driven with the same sequence of time arguments, show the same
    sequence of positions and velocities (and raise at the same call, if
    at all).  Moreover, when [math.sqrt] is a function of the number it is
    given, parameters and states that are equal as numbers, however the
    fractions are written, give traces that are equal as numbers. *)
Theorem run_deterministic (sim1 sim2 : self) (ts : list Q) :
  (parameters sim1 = parameters sim2 -> s sim1 = s sim2 -> v sim1 = v sim2 ->
   run_trace sim1 ts = run_trace sim2 ts)
  /\ (Proper (Qeq ==> Qeq) math_sqrt ->
      sim_eq sim1 sim2 -> wf sim1 -> valid sim1 ->
      exists tr1 tr2,
        run_trace sim1 ts = Ok tr1 /\ run_trace sim2 ts = Ok tr2
        /\ trace_eq tr1 tr2).
Proof.
  split.
  - intros Hp Hs Hv. rewrite (self_ext sim1 sim2 Hp Hs Hv). reflexivity.
  - intros Hsqrt Heq Hwf Hv. apply run_trace_sim_eq; assumption.
Qed.

(** * Further properties of the methods *)

(** ** Arithmetic used below *)

Lemma Qsquare_nonneg (x : Q) : 0 <= x ^ 2.
Proof. rewrite Qpower_2. nra. Qed.

Lemma Qfourth_nonneg (x : Q) : 0 <= x ^ 4.
Proof. rewrite Qpower_4. assert (0 <= x * x) by nra. nra. Qed.

Lemma Qsquare_le (x y : Q) : 0 <= x -> x <= y -> x ^ 2 <= y ^ 2.
Proof. intros H0 H1. rewrite !Qpower_2. nra. Qed.

Lemma inject_nat_nonneg (k : nat) : 0 <= inject_Z (Z.of_nat k).
Proof. change 0 with (inject_Z 0). rewrite <- Zle_Qle. lia. Qed.

Lemma inject_nat_succ (k : nat) :
  inject_Z (Z.of_nat (S k)) == inject_Z (Z.of_nat k) + 1.
Proof. rewrite Nat2Z.inj_succ. unfold Z.succ. rewrite inject_Z_plus. reflexivity. Qed.

Lemma Qnonzero_of_pos (x : Q) : 0 < x -> ~ x == 0.
Proof. intros H E. rewrite E in H. revert H. apply Qlt_irrefl. Qed.

Lemma py_max_zero_idem (x d : Q) :
  0 <= d -> py_max 0 (py_max 0 x - d) == py_max 0 (x - d).
Proof.
  intros Hd. unfold py_max.
  destruct (Qltb 0 x) eqn:Ex.
  - reflexivity.
  - apply Qltb_ge in Ex.
    assert (E1 : Qltb 0 (0 - d) = false) by (apply Qltb_ge; lra).
    assert (E2 : Qltb 0 (x - d) = false) by (apply Qltb_ge; lra).
    rewrite E1, E2. reflexivity.
Qed.

(** Free acceleration never takes a velocity in [[0, v0]] above [v0] when
    one step of full acceleration is at most a quarter of [v0]. *)
Lemma free_road_below_desired (x v0 a dt : Q) :
  0 < v0 -> 0 <= a -> 0 <= dt -> 4 * a * dt <= v0 ->
  0 <= x -> x <= v0 ->
  x + a * (1 - (x / v0) ^ 4) * dt <= v0.
Proof.
  intros Hv0 Ha Hdt Hq H0 H1.
  set (u := x / v0).
  assert (Hu : x == v0 * u) by (unfold u; field; apply Qnonzero_of_pos, Hv0).
  assert (Hu0 : 0 <= u) by (unfold u; apply Qle_shift_div_l; lra).
  assert (Hu1 : u <= 1) by (unfold u; apply Qle_shift_div_r; lra).
  rewrite Qpower_4.
  assert (Hs0 : 0 <= u * u) by nra.
  assert (Hs1 : u * u <= 1) by nra.
  assert (Hf : (1 + u) * (1 + u * u) <= 4) by nra.
  assert (Hp : 1 - u * u * (u * u) == (1 - u) * ((1 + u) * (1 + u * u))) by ring.
  assert (Hq1 : (1 - u) * ((1 + u) * (1 + u * u)) <= (1 - u) * 4).
  { rewrite !(Qmult_comm (1 - u)). apply Qmult_le_compat_r; lra. }
  assert (Had : 0 <= a * dt) by (apply Qmult_le_0_compat; assumption).
  assert (Hw : a * dt * (1 - u * u * (u * u)) <= a * dt * ((1 - u) * 4)).
  { rewrite !(Qmult_comm (a * dt)). apply Qmult_le_compat_r; lra. }
  assert (Hz : (4 * a * dt) * (1 - u) <= v0 * (1 - u)).
  { apply Qmult_le_compat_r; lra. }
  assert (Hr : a * (1 - u * u * (u * u)) * dt == a * dt * (1 - u * u * (u * u))) by ring.
  assert (Hr2 : a * dt * ((1 - u) * 4) == (4 * a * dt) * (1 - u)) by ring.
  assert (Hr3 : v0 * (1 - u) == v0 - v0 * u) by ring.
  lra.
Qed.

(** ** The gap of a vehicle *)

(** [get_gap] reads [N], [CIRC] and [L_VEHICLE] of the object and the
    array it is given. *)
Lemma get_gap_assign (sim : self) (i : nat) (s_curr : list Q) :
  get_gap sim i s_curr = get_gap (assign sim s_curr s_curr) i s_curr.
Proof. reflexivity. Qed.

(** X1.  On an array of [N] positions that all lie in [[0, CIRC)],
    [get_gap] returns for every vehicle a value between [- L_VEHICLE]
    and [CIRC - L_VEHICLE]: the ring distance to the vehicle of the
    previous index is never negative and never more than a lap.  (The
    upper bound is not strict: in binary64 [dist + CIRC] rounds to
    [CIRC] when the leader stands a hair behind.) *)
Theorem get_gap_range (sim : self) (i : nat) (s_curr : list Q) :
  length s_curr = N sim ->
  (forall j x, s_curr !! j = Some x -> 0 <= x /\ x < CIRC sim) ->
  (i < N sim)%nat ->
  exists g, get_gap sim i s_curr = Ok g
            /\ - L_VEHICLE sim <= g /\ g <= CIRC sim - L_VEHICLE sim.
Proof.
  intros Hlen Hring Hi.
  set (sim' := assign sim s_curr s_curr).
  assert (Hwf : wf sim') by (split; exact Hlen).
  assert (Hr : in_ring sim') by exact Hring.
  exists (gap sim' i). split.
  - rewrite get_gap_assign. apply (get_gap_ok sim' i Hwf Hi).
  - destruct (dist_bounds sim' i Hwf Hr Hi) as (H0 & H1 & _).
    unfold gap. change (L_VEHICLE sim') with (L_VEHICLE sim).
    change (CIRC sim') with (CIRC sim) in H1. lra.
Qed.

(** X2.  The exceptions of [get_gap] for an index [i >= 0]: with
    [N = 0] the index arithmetic divides by zero; otherwise the call
    returns exactly when both [i] and the leader's index are inside the
    array, and raises [IndexError] when one of them is not. *)
Theorem get_gap_exceptions (sim : self) (i : nat) (s_curr : list Q) :
  (N sim = O -> get_gap sim i s_curr = Raise ZeroDivisionError)
  /\ ((0 < N sim)%nat ->
      (leader sim i < length s_curr)%nat /\ (i < length s_curr)%nat ->
      exists g, get_gap sim i s_curr = Ok g)
  /\ ((0 < N sim)%nat ->
      ~ ((leader sim i < length s_curr)%nat /\ (i < length s_curr)%nat) ->
      get_gap sim i s_curr = Raise IndexError).
Proof.
  unfold get_gap, leader_index, int_mod, leader.
  repeat split.
  - intros ->. reflexivity.
  - intros HN [Hl Hi]. destruct (N sim) as [|n] eqn:EN; [lia|].
    cbn [bind].
    rewrite (getitem_default _ _ Hl). cbn [bind].
    rewrite (getitem_default _ _ Hi). cbn [bind].
    eexists. reflexivity.
  - intros HN Hno. destruct (N sim) as [|n] eqn:EN; [lia|].
    cbn [bind]. unfold getitem.
    destruct (s_curr !! ((i + S n - 1) mod S n)%nat) as [x|] eqn:El; [|reflexivity].
    cbn [bind].
    destruct (s_curr !! i) as [y|] eqn:Ei; [|reflexivity].
    exfalso. apply Hno. split; eapply lookup_lt_Some; eassumption.
Qed.

Lemma linspace_lookup (circ : Q) (n i : nat) :
  (i < n)%nat ->
  linspace 0 circ n !! i
  = Some (inject_Z (Z.of_nat i) * ((circ - 0) / inject_Z (Z.of_nat n)) + 0).
Proof.
  intros Hi. unfold linspace.
  exact (lookup_map_seq
           (fun i : nat => inject_Z (Z.of_nat i) * ((circ - 0) / inject_Z (Z.of_nat n)) + 0)
           n i Hi).
Qed.

Lemma fresh_pos (sim : self) (i : nat) :
  fresh sim -> (i < N sim)%nat ->
  pos sim i == inject_Z (Z.of_nat i) * (CIRC sim / inject_Z (Z.of_nat (N sim))).
Proof.
  intros [Hs _] Hi. unfold pos. rewrite Hs, linspace_lookup by exact Hi.
  simpl default. unfold Qminus.
  assert (E : CIRC sim + - 0 == CIRC sim) by ring.
  rewrite E. ring.
Qed.

(** X3.  In the state [__init__] builds, the vehicle of the previous
    index stands one spacing behind, so [get_gap] measures almost the
    whole ring: for every vehicle it returns
    [CIRC - CIRC / N - L_VEHICLE]. *)
Theorem fresh_gap (sim : self) (i : nat) :
  fresh sim -> 0 < CIRC sim -> (i < N sim)%nat ->
  exists g, get_gap sim i (s sim) = Ok g
            /\ g == CIRC sim - CIRC sim / inject_Z (Z.of_nat (N sim)) - L_VEHICLE sim.
Proof.
  intros Hf Hc Hi.
  pose proof (fresh_wf sim Hf) as Hwf.
  exists (gap sim i). split; [apply get_gap_ok; assumption|].
  unfold gap, dist.
  set (n := inject_Z (Z.of_nat (N sim))).
  assert (Hn : 0 < n).
  { unfold n. change 0 with (inject_Z 0). rewrite <- Zlt_Qlt. lia. }
  assert (Hn0 : ~ n == 0) by apply Qnonzero_of_pos, Hn.
  assert (Hsp : 0 < CIRC sim / n) by (apply Qlt_shift_div_l; lra).
  pose proof (fresh_pos sim i Hf Hi) as Pi.
  pose proof (fresh_pos sim _ Hf (leader_lt sim i Hi)) as Pl.
  fold n in Pi, Pl.
  destruct i as [|i].
  - assert (El : leader sim 0 = (N sim - 1)%nat).
    { unfold leader. replace (0 + N sim - 1)%nat with (N sim - 1)%nat by lia.
      apply Nat.mod_small. lia. }
    rewrite El in *.
    assert (Ek : inject_Z (Z.of_nat (N sim - 1)) == n - 1).
    { unfold n. rewrite Nat2Z.inj_sub by lia. unfold Z.sub.
      rewrite inject_Z_plus, inject_Z_opp. reflexivity. }
    rewrite Ek in Pl. change (inject_Z (Z.of_nat 0)) with 0 in Pi.
    assert (Ed : pos sim (N sim - 1) - pos sim 0 == CIRC sim - CIRC sim / n).
    { rewrite Pl, Pi. field. exact Hn0. }
    assert (Hle : CIRC sim / n <= CIRC sim).
    { apply Qle_shift_div_r; [exact Hn|].
      assert (H1 : 1 <= n).
      { unfold n. change 1 with (inject_Z 1). rewrite <- Zle_Qle. lia. }
      nra. }
    destruct (Qltb (pos sim (N sim - 1) - pos sim 0) 0) eqn:E.
    + apply Qltb_lt in E. lra.
    + rewrite Ed. reflexivity.
  - rewrite leader_follower in * by lia.
    replace (S i - 1)%nat with i in * by lia.
    rewrite inject_nat_succ in Pi.
    assert (Ed : pos sim i - pos sim (S i) == - (CIRC sim / n)).
    { rewrite Pl, Pi. ring. }
    destruct (Qltb (pos sim i - pos sim (S i)) 0) eqn:E.
    + rewrite Ed. ring.
    + apply Qltb_ge in E. lra.
Qed.

(** ** The car-following law *)

Lemma effective_gap_pos (g : Q) : 0 < py_max 0.01 g.
Proof. pose proof (py_max_lower 0.01 g). lra. Qed.

(** X4.  When [A_MAX >= 0], [math.sqrt] does not raise and neither
    divisor ([V0], the square root) is zero,
    [idm_accel] never returns more than the free-road acceleration
    [A_MAX * (1 - (v / V0) ** 4)], hence never more than [A_MAX]. *)
Theorem idm_accel_at_most_free_road (sim : self) (v_curr v_leader g : Q) :
  0 <= A_MAX sim -> 0 <= A_MAX sim * B_DECEL sim ->
  ~ V0 sim == 0 -> 0 < math_sqrt (A_MAX sim * B_DECEL sim) ->
  exists a, idm_accel sim v_curr v_leader g = Ok a
            /\ a <= A_MAX sim * (1 - (v_curr / V0 sim) ^ 4)
            /\ a <= A_MAX sim.
Proof.
  intros Ha Hab _ _. rewrite (idm_accel_ok sim _ _ _ Hab).
  eexists. split; [reflexivity|].
  unfold idm.
  set (r := _ / py_max 0.01 g).
  pose proof (Qsquare_nonneg r) as Hr.
  pose proof (Qfourth_nonneg (v_curr / V0 sim)) as Hu.
  set (r2 := r ^ 2) in *. set (u4 := (v_curr / V0 sim) ^ 4) in *.
  split; nra.
Qed.

(** The desired gap is at least the jam distance. *)
Lemma s_star_lower (sim : self) (x : Q) : S0 sim <= S0 sim + py_max 0 x.
Proof. pose proof (py_max_lower 0 x). lra. Qed.

Lemma Qdiv_le_den (x a b : Q) : 0 <= x -> 0 < a -> a <= b -> x / b <= x / a.
Proof.
  intros Hx Ha Hab.
  apply Qle_shift_div_l; [exact Ha|].
  assert (Hb : 0 < b) by lra.
  assert (E : x / b * a == (x * a) / b) by (field; apply Qnonzero_of_pos, Hb).
  rewrite E. apply Qle_shift_div_r; [exact Hb|]. nra.
Qed.

Lemma Qdiv_nonneg (x a : Q) : 0 <= x -> 0 < a -> 0 <= x / a.
Proof. intros Hx Ha. apply Qle_shift_div_l; [exact Ha|]. lra. Qed.

Lemma py_max_mono (a x y : Q) : x <= y -> py_max a x <= py_max a y.
Proof.
  intros H. apply py_max_le.
  - apply py_max_lower.
  - pose proof (py_max_upper a y). lra.
Qed.

(** X5.  With [A_MAX >= 0], [S0 >= 0] and neither divisor ([V0], the
    square root) zero, [idm_accel] is monotone in the
    gap: a larger gap never gives a smaller acceleration, all else
    equal. *)
Theorem idm_accel_monotone_in_gap (sim : self) (v_curr v_leader g1 g2 : Q) :
  0 <= A_MAX sim -> 0 <= A_MAX sim * B_DECEL sim -> 0 <= S0 sim ->
  ~ V0 sim == 0 -> 0 < math_sqrt (A_MAX sim * B_DECEL sim) ->
  g1 <= g2 ->
  exists a1 a2,
    idm_accel sim v_curr v_leader g1 = Ok a1
    /\ idm_accel sim v_curr v_leader g2 = Ok a2
    /\ a1 <= a2.
Proof.
  intros Ha Hab Hs _ _ Hg. rewrite !(idm_accel_ok sim _ _ _ Hab).
  eexists. eexists. split; [reflexivity|]. split; [reflexivity|].
  unfold idm.
  set (star := S0 sim + py_max 0 _).
  assert (Hstar : 0 <= star) by (pose proof (s_star_lower sim
    (v_curr * T_HEADWAY sim
     + v_curr * (v_curr - v_leader) / (2 * math_sqrt (A_MAX sim * B_DECEL sim))));
    fold star in H; lra).
  pose proof (effective_gap_pos g1) as He1.
  pose proof (py_max_mono 0.01 g1 g2 Hg) as He.
  pose proof (Qdiv_le_den star _ _ Hstar He1 He) as Hq.
  assert (Hq0 : 0 <= star / py_max 0.01 g2).
  { apply Qdiv_nonneg; [exact Hstar | apply effective_gap_pos]. }
  pose proof (Qsquare_le _ _ Hq0 Hq) as Hsq.
  set (q1 := (star / py_max 0.01 g1) ^ 2) in *.
  set (q2 := (star / py_max 0.01 g2) ^ 2) in *.
  set (u4 := (v_curr / V0 sim) ^ 4).
  clearbody q1 q2 u4. nra.
Qed.

(** ** The leader's schedule *)

Lemma leader_stopped_cycle (sim : self) (t r : Q) (k : nat) :
  0 < REPEAT_INTERVAL sim ->
  0 <= r -> r < REPEAT_INTERVAL sim ->
  t == FIRST_STOP sim + inject_Z (Z.of_nat k) * REPEAT_INTERVAL sim + r ->
  leader_stopped sim t = Ok (Qltb r (STOP_DURATION sim)).
Proof.
  intros HR Hr0 Hr1 Ht.
  pose proof (inject_nat_nonneg k) as Hk.
  assert (Hk' : 0 <= inject_Z (Z.of_nat k) * REPEAT_INTERVAL sim)
    by (apply Qmult_le_0_compat; lra).
  rewrite leader_stopped_from; [| lra | apply Qnonzero_of_pos, HR].
  f_equal.
  assert (E : Qmod (t - FIRST_STOP sim) (REPEAT_INTERVAL sim) == r).
  { apply (Qmod_unique _ _ _ (Z.of_nat k)); try assumption.
    rewrite Ht. ring. }
  rewrite E. reflexivity.
Qed.

(** X6.  With [0 <= STOP_DURATION <= REPEAT_INTERVAL] and
    [REPEAT_INTERVAL > 0] the schedule is the one the docstring draws:
    the [k]-th stop starts at [FIRST_STOP + k * REPEAT_INTERVAL], lasts
    [STOP_DURATION], and the leader is free from its end to the start of
    the next stop. *)
Theorem leader_stopped_windows (sim : self) (t : Q) (k : nat) :
  0 < REPEAT_INTERVAL sim ->
  0 <= STOP_DURATION sim -> STOP_DURATION sim <= REPEAT_INTERVAL sim ->
  (FIRST_STOP sim + inject_Z (Z.of_nat k) * REPEAT_INTERVAL sim <= t ->
   t < FIRST_STOP sim + inject_Z (Z.of_nat k) * REPEAT_INTERVAL sim + STOP_DURATION sim ->
   leader_stopped sim t = Ok true)
  /\ (FIRST_STOP sim + inject_Z (Z.of_nat k) * REPEAT_INTERVAL sim + STOP_DURATION sim <= t ->
      t < FIRST_STOP sim + inject_Z (Z.of_nat k) * REPEAT_INTERVAL sim + REPEAT_INTERVAL sim ->
      leader_stopped sim t = Ok false).
Proof.
  intros HR Hd0 Hd1.
  set (start := FIRST_STOP sim + inject_Z (Z.of_nat k) * REPEAT_INTERVAL sim).
  split; intros Hlo Hhi.
  - rewrite (leader_stopped_cycle sim t (t - start) k); try assumption; try lra.
    + f_equal. apply Qltb_lt. lra.
    + unfold start. ring.
  - rewrite (leader_stopped_cycle sim t (t - start) k); try assumption; try lra.
    + f_equal. apply Qltb_ge. lra.
    + unfold start. ring.
Qed.

(** X7.  Degenerate schedules, with [REPEAT_INTERVAL > 0]: a stop as long
    as the interval or longer keeps the leader stopped at every time from
    [FIRST_STOP] on; a stop of no duration never stops it. *)
Theorem leader_stopped_degenerate (sim : self) (t : Q) :
  0 < REPEAT_INTERVAL sim -> FIRST_STOP sim <= t ->
  (REPEAT_INTERVAL sim <= STOP_DURATION sim -> leader_stopped sim t = Ok true)
  /\ (STOP_DURATION sim <= 0 -> leader_stopped sim t = Ok false).
Proof.
  intros HR Ht.
  rewrite leader_stopped_from; [| exact Ht | apply Qnonzero_of_pos, HR].
  destruct (Qmod_bounds (t - FIRST_STOP sim) (REPEAT_INTERVAL sim) HR) as [H0 H1].
  split; intros H; f_equal.
  - apply Qltb_lt. lra.
  - apply Qltb_ge. lra.
Qed.

(** X8.  The schedule repeats: from [FIRST_STOP] on, the answer at [t]
    and at [t + k * REPEAT_INTERVAL] is the same. *)
Theorem leader_stopped_periodic (sim : self) (t : Q) (k : nat) :
  0 < REPEAT_INTERVAL sim -> FIRST_STOP sim <= t ->
  leader_stopped sim (t + inject_Z (Z.of_nat k) * REPEAT_INTERVAL sim)
  = leader_stopped sim t.
Proof.
  intros HR Ht.
  pose proof (inject_nat_nonneg k) as Hk.
  assert (Hk' : 0 <= inject_Z (Z.of_nat k) * REPEAT_INTERVAL sim)
    by (apply Qmult_le_0_compat; lra).
  destruct (Qmod_bounds (t - FIRST_STOP sim) (REPEAT_INTERVAL sim) HR) as [H0 H1].
  destruct (Qmod_decompose (t - FIRST_STOP sim) (REPEAT_INTERVAL sim)) as [m Hm].
  rewrite (leader_stopped_from sim t Ht (Qnonzero_of_pos _ HR)).
  rewrite leader_stopped_from; [| lra | apply Qnonzero_of_pos, HR].
  f_equal.
  assert (E : Qmod (t + inject_Z (Z.of_nat k) * REPEAT_INTERVAL sim - FIRST_STOP sim)
                   (REPEAT_INTERVAL sim)
              == Qmod (t - FIRST_STOP sim) (REPEAT_INTERVAL sim)).
  { apply (Qmod_unique _ _ _ (m + Z.of_nat k)); try assumption.
    rewrite Hm, inject_Z_plus. ring. }
  rewrite E. reflexivity.
Qed.

(** ** Exceptions of a step *)






(** ** Velocities after a step *)

Lemma lookup_vel (sim : self) (i : nat) :
  wf sim -> (i < N sim)%nat -> v sim !! i = Some (vel sim i).
Proof.
  intros [_ Hl] Hi. unfold vel.
  destruct (lookup_lt_is_Some_2 (v sim) i) as [x Hx]; [lia|].
  rewrite Hx. reflexivity.
Qed.

Lemma idm_at_most_free_road (sim : self) (vc vl g : Q) :
  0 <= A_MAX sim -> idm sim vc vl g <= A_MAX sim * (1 - (vc / V0 sim) ^ 4).
Proof.
  intros Ha. unfold idm.
  set (r := _ / py_max 0.01 g).
  pose proof (Qsquare_nonneg r) as Hr.
  set (r2 := r ^ 2) in *. set (u4 := (vc / V0 sim) ^ 4) in *.
  clearbody r2 u4. nra.
Qed.

(** The anti-collision rule only ever lowers the Euler velocity. *)
Lemma follower_velocity_at_most_euler (sim : self) (i : nat) :
  0 < DT sim ->
  follower_velocity sim i
  <= py_max 0 (vel sim i
               + idm sim (vel sim i) (vel sim (leader sim i)) (gap sim i) * DT sim).
Proof.
  intros Hdt. unfold follower_velocity.
  set (e := py_max 0 _).
  destruct (Qltb (gap sim i - 0.5) (e * DT sim)) eqn:E; [|lra].
  apply Qltb_lt in E.
  apply py_max_le; [apply py_max_lower|].
  apply Qle_shift_div_r; [exact Hdt | lra].
Qed.

(** Inside the clearance the anti-collision rule changes nothing. *)
Lemma follower_velocity_is_euler (sim : self) (i : nat) :
  let e := py_max 0 (vel sim i
                     + idm sim (vel sim i) (vel sim (leader sim i)) (gap sim i) * DT sim) in
  e * DT sim <= gap sim i - 0.5 -> follower_velocity sim i = e.
Proof.
  intros e He. unfold follower_velocity. fold e.
  apply Qltb_ge in He. rewrite He. reflexivity.
Qed.

Lemma euler_velocity_within (sim : self) (stopped : bool) (i : nat) :
  0 < V0 sim -> 0 <= A_MAX sim -> 0 <= DT sim -> 4 * A_MAX sim * DT sim <= V0 sim ->
  0 <= vel sim i -> vel sim i <= V0 sim ->
  euler_velocity sim stopped i <= V0 sim.
Proof.
  intros Hv0 Ha Hdt Hq H0 H1.
  pose proof (free_road_below_desired (vel sim i) (V0 sim) (A_MAX sim) (DT sim)
                Hv0 Ha Hdt Hq H0 H1) as Hfree.
  unfold euler_velocity. apply py_max_le; [lra|].
  destruct i as [|i]; unfold acceleration.
  - destruct stopped.
    + destruct (Qltb 0 (vel sim 0)); nra.
    + exact Hfree.
  - pose proof (idm_at_most_free_road sim (vel sim (S i)) (vel sim (leader sim (S i)))
                  (gap sim (S i)) Ha) as Hidm.
    set (a := idm sim _ _ _) in *. set (u4 := (vel sim (S i) / V0 sim) ^ 4) in *.
    clearbody a u4. nra.
Qed.

Lemma next_velocity_within (sim : self) (stopped : bool) (i : nat) :
  0 < V0 sim -> 0 <= A_MAX sim -> 0 < DT sim -> 4 * A_MAX sim * DT sim <= V0 sim ->
  0 <= vel sim i -> vel sim i <= V0 sim ->
  next_velocity sim stopped i <= V0 sim.
Proof.
  intros Hv0 Ha Hdt Hq H0 H1.
  pose proof (euler_velocity_within sim stopped i Hv0 Ha ltac:(lra) Hq H0 H1) as He.
  destruct i as [|i].
  - unfold next_velocity. destruct (pinned sim stopped); lra.
  - rewrite next_velocity_follower by lia.
    pose proof (follower_velocity_at_most_euler sim (S i) Hdt) as Hf.
    unfold euler_velocity, acceleration in He. lra.
Qed.

Lemma step_spec_within (sim : self) (stopped : bool) :
  wf sim ->
  0 < V0 sim -> 0 <= A_MAX sim -> 0 < DT sim -> 4 * A_MAX sim * DT sim <= V0 sim ->
  within_desired_speed sim -> within_desired_speed (step_spec sim stopped).
Proof.
  intros Hwf Hv0 Ha Hdt Hq Hin i x Hx.
  assert (Hi : (i < N sim)%nat).
  { apply lookup_lt_Some in Hx. simpl in Hx. rewrite length_map_seq in Hx. exact Hx. }
  rewrite step_spec_vel in Hx by exact Hi. injection Hx as <-.
  change (V0 (step_spec sim stopped)) with (V0 sim).
  destruct (Hin i _ (lookup_vel sim i Hwf Hi)) as [H0 H1].
  split; [apply next_velocity_nonneg|].
  apply next_velocity_within; assumption.
Qed.

Lemma run_step_parameters (sim sim' : self) (t : Q) :
  wf sim -> valid sim -> run_step sim t = Ok sim' -> parameters sim' = parameters sim.
Proof.
  intros Hwf Hv Hrun.
  destruct (run_step_total sim t Hwf Hv) as (b & _ & Hb).
  rewrite Hb in Hrun. injection Hrun as <-. reflexivity.
Qed.

Lemma parameters_fields (a b : self) :
  parameters a = parameters b ->
  N a = N b /\ CIRC a = CIRC b /\ DT a = DT b /\ SIM_TIME a = SIM_TIME b
  /\ L_VEHICLE a = L_VEHICLE b /\ S0 a = S0 b /\ V0 a = V0 b
  /\ A_MAX a = A_MAX b /\ B_DECEL a = B_DECEL b /\ T_HEADWAY a = T_HEADWAY b
  /\ STOP_DURATION a = STOP_DURATION b /\ FIRST_STOP a = FIRST_STOP b
  /\ REPEAT_INTERVAL a = REPEAT_INTERVAL b.
Proof.
  destruct a, b. unfold parameters, assign. simpl.
  intros Hp. injection Hp. intros. subst. repeat split.
Qed.

Lemma fresh_within_desired_speed (sim : self) :
  fresh sim -> 0 <= V0 sim -> within_desired_speed sim.
Proof.
  intros [_ Hv] H0 i x Hx. rewrite Hv in Hx.
  apply list_elem_of_lookup_2, list_elem_of_In, in_map_iff in Hx.
  destruct Hx as (one & <- & Hone).
  apply repeat_spec in Hone. subst one. lra.
Qed.

(** X10.  The desired speed is a speed limit.  When [V0 > 0],
    [A_MAX >= 0], [DT > 0] and one step of full acceleration is at most a
    quarter of [V0] ([4 * A_MAX * DT <= V0]), every sequence of steps
    from a state whose velocities lie in [[0, V0]] returns and leaves
    every velocity in [[0, V0]]. *)
Theorem velocities_within_desired_speed (sim : self) (ts : list Q) :
  wf sim -> valid sim ->
  0 < V0 sim -> 0 <= A_MAX sim -> 0 < DT sim -> 4 * A_MAX sim * DT sim <= V0 sim ->
  (forall i x, v sim !! i = Some x -> 0 <= x /\ x <= V0 sim) ->
  exists sim',
    run_steps sim ts = Ok sim'
    /\ length (v sim') = N sim
    /\ forall i x, v sim' !! i = Some x -> 0 <= x /\ x <= V0 sim.
Proof.
  intros Hwf Hv Hv0 Ha Hdt Hq Hin.
  destruct (run_steps_total sim ts Hwf Hv) as [sim' Hrun].
  exists sim'. split; [exact Hrun|].
  pose (P := fun x : self =>
               parameters x = parameters sim /\ wf x /\ within_desired_speed x).
  assert (HP : P sim') .
  { apply (run_steps_invariant P) with (ts := ts) (sim := sim); try assumption.
    - intros x t x' Hwfx Hvx (Hpx & _ & Hinx) Hstep.
      destruct (run_step_total x t Hwfx Hvx) as (b & _ & Hb).
      rewrite Hb in Hstep. injection Hstep as <-.
      destruct (parameters_fields x sim Hpx)
        as (_ & _ & EDT & _ & _ & _ & EV0 & EA & _).
      split; [exact Hpx|]. split; [apply step_spec_wf|].
      apply step_spec_within; try assumption; rewrite ?EDT, ?EV0, ?EA; assumption.
    - split; [reflexivity|]. split; assumption. }
  destruct HP as (Hp & [_ Hl] & Hw).
  destruct (parameters_fields sim' sim Hp) as (EN & _ & _ & _ & _ & _ & EV0 & _).
  split; [lia|].
  intros i x Hx. rewrite <- EV0. exact (Hw i x Hx).
Qed.

(** X11.  With [DT > 0] the anti-collision rule never speeds a follower
    up: its new velocity is at most the Euler velocity
    [max(0, v + a * DT)] computed from [idm_accel], and equals it when
    that velocity keeps the displacement within [gap - 0.5]. *)
Theorem safeguard_never_accelerates (sim : self) (t : Q) (i : nat) :
  wf sim -> valid sim -> 0 < DT sim -> (0 < i < N sim)%nat ->
  exists sim' g v_i v_leader a v',
    run_step sim t = Ok sim'
    /\ get_gap sim i (s sim) = Ok g
    /\ v sim !! i = Some v_i
    /\ v sim !! (i - 1)%nat = Some v_leader
    /\ idm_accel sim v_i v_leader g = Ok a
    /\ v sim' !! i = Some v'
    /\ v' <= py_max 0 (v_i + a * DT sim)
    /\ (py_max 0 (v_i + a * DT sim) * DT sim <= g - 0.5 ->
        v' = py_max 0 (v_i + a * DT sim)).
Proof.
  intros Hwf Hv Hdt Hi.
  destruct (run_step_total sim t Hwf Hv) as (b & _ & Hb).
  assert (Hi' : (i < N sim)%nat) by lia.
  pose proof (leader_follower sim i Hi) as El.
  exists (step_spec sim b), (gap sim i), (vel sim i), (vel sim (leader sim i)),
         (idm sim (vel sim i) (vel sim (leader sim i)) (gap sim i)),
         (follower_velocity sim i).
  split; [exact Hb|].
  split; [apply get_gap_ok; assumption|].
  split; [apply lookup_vel; assumption|].
  split; [rewrite <- El; apply lookup_vel; [assumption | apply leader_lt, Hi']|].
  split; [apply idm_accel_ok, Hv|].
  split.
  { rewrite step_spec_vel by exact Hi'. f_equal.
    apply next_velocity_follower. lia. }
  split.
  - apply follower_velocity_at_most_euler, Hdt.
  - apply follower_velocity_is_euler.
Qed.

(** ** The leader between and during its stops *)

Lemma next_velocity_braking (sim : self) :
  0 <= DT sim -> next_velocity sim true 0 == py_max 0 (vel sim 0 - 10 * DT sim).
Proof.
  intros Hdt. unfold next_velocity, pinned, euler_velocity, acceleration.
  destruct (Qltb 0 (vel sim 0)) eqn:E; cbn [andb negb].
  - apply py_max_comp; [reflexivity | ring].
  - apply Qltb_ge in E. rewrite py_max_first by lra. reflexivity.
Qed.

Lemma run_steps_cons (sim : self) (t : Q) (ts : list Q) (b : bool) :
  wf sim -> valid sim -> leader_stopped sim t = Ok b ->
  run_steps sim (t :: ts) = run_steps (step_spec sim b) ts.
Proof.
  intros Hwf Hv Hb. cbn [run_steps].
  rewrite (run_step_refines sim t b Hwf (or_intror (proj2 Hv)) Hb). reflexivity.
Qed.

Lemma leader_braking_run (ts : list Q) (sim : self) :
  wf sim -> valid sim -> (0 < N sim)%nat -> 0 <= DT sim -> 0 <= vel sim 0 ->
  Forall (fun t => leader_stopped sim t = Ok true) ts ->
  exists sim',
    run_steps sim ts = Ok sim'
    /\ wf sim' /\ N sim' = N sim
    /\ vel sim' 0
       == py_max 0 (vel sim 0 - 10 * DT sim * inject_Z (Z.of_nat (length ts))).
Proof.
  revert sim. induction ts as [|t ts IH]; intros sim Hwf Hv HN Hdt H0 Hts.
  - exists sim. split; [reflexivity|]. split; [exact Hwf|]. split; [reflexivity|].
    cbn [length]. change (inject_Z (Z.of_nat 0)) with 0.
    assert (E : vel sim 0 - 10 * DT sim * 0 == vel sim 0) by ring.
    rewrite E. unfold py_max.
    destruct (Qltb 0 (vel sim 0)) eqn:E0; [reflexivity|].
    apply Qltb_ge in E0. lra.
  - inversion Hts as [|? ? Ht Hrest]; subst.
    rewrite (run_steps_cons sim t ts true Hwf Hv Ht).
    destruct (IH (step_spec sim true)) as (sim' & Hrun & Hwf' & HN' & Hvel).
    + apply step_spec_wf.
    + apply step_spec_valid, Hv.
    + exact HN.
    + exact Hdt.
    + rewrite vel_step_spec by exact HN. apply next_velocity_nonneg.
    + exact Hrest.
    + exists sim'. split; [exact Hrun|]. split; [exact Hwf'|]. split; [exact HN'|].
      rewrite Hvel. rewrite vel_step_spec by exact HN.
      change (DT (step_spec sim true)) with (DT sim).
      rewrite (next_velocity_braking sim Hdt).
      assert (Hd : 0 <= 10 * DT sim * inject_Z (Z.of_nat (length ts))).
      { pose proof (inject_nat_nonneg (length ts)). nra. }
      rewrite (py_max_zero_idem _ _ Hd).
      apply py_max_comp; [reflexivity|].
      cbn [length]. rewrite inject_nat_succ. ring.
Qed.

(** X12.  While the schedule answers [True] the leader brakes at
    10 m/s^2 and then stays at rest: after [n] consecutive such steps
    its velocity is [max(0, v - 10 * DT * n)], whatever the followers
    do. *)
Theorem leader_braking (sim : self) (ts : list Q) (v0 : Q) :
  wf sim -> valid sim -> 0 <= DT sim ->
  v sim !! O = Some v0 -> 0 <= v0 ->
  Forall (fun t => leader_stopped sim t = Ok true) ts ->
  exists sim' v',
    run_steps sim ts = Ok sim'
    /\ v sim' !! O = Some v'
    /\ v' == py_max 0 (v0 - 10 * DT sim * inject_Z (Z.of_nat (length ts))).
Proof.
  intros Hwf Hv Hdt Hv0 H0 Hts.
  assert (HN : (0 < N sim)%nat).
  { apply lookup_lt_Some in Hv0. destruct Hwf. lia. }
  assert (E : vel sim 0 = v0) by (unfold vel; rewrite Hv0; reflexivity).
  destruct (leader_braking_run ts sim Hwf Hv HN Hdt ltac:(rewrite E; exact H0) Hts)
    as (sim' & Hrun & Hwf' & HN' & Hvel).
  exists sim', (vel sim' 0).
  split; [exact Hrun|].
  split; [apply lookup_vel; [exact Hwf' | lia]|].
  rewrite Hvel, E. reflexivity.
Qed.

Lemma next_velocity_cruise (sim : self) :
  0 < V0 sim -> vel sim 0 == V0 sim -> next_velocity sim false 0 == V0 sim.
Proof.
  intros Hv0 E. unfold next_velocity, pinned, euler_velocity, acceleration.
  cbn [andb].
  assert (Eu : vel sim 0 / V0 sim == 1).
  { rewrite E. field. apply Qnonzero_of_pos, Hv0. }
  assert (Ea : vel sim 0 + A_MAX sim * (1 - (vel sim 0 / V0 sim) ^ 4) * DT sim == V0 sim).
  { rewrite Eu. rewrite E. simpl. ring. }
  rewrite Ea. rewrite (py_max_second 0 (V0 sim) Hv0). reflexivity.
Qed.

Lemma next_position_free (sim : self) :
  next_position sim false 0
  = Qmod (pos sim 0 + next_velocity sim false 0 * DT sim) (CIRC sim).
Proof. reflexivity. Qed.

Lemma leader_cruise_run (ts : list Q) (sim : self) :
  wf sim -> valid sim -> (0 < N sim)%nat -> 0 < V0 sim -> 0 < CIRC sim ->
  vel sim 0 == V0 sim -> 0 <= pos sim 0 -> pos sim 0 < CIRC sim ->
  Forall (fun t => leader_stopped sim t = Ok false) ts ->
  exists sim',
    run_steps sim ts = Ok sim'
    /\ wf sim' /\ N sim' = N sim
    /\ vel sim' 0 == V0 sim
    /\ pos sim' 0
       == Qmod (pos sim 0 + inject_Z (Z.of_nat (length ts)) * (V0 sim * DT sim))
               (CIRC sim).
Proof.
  revert sim. induction ts as [|t ts IH]; intros sim Hwf Hv HN Hv0 Hc Evel Hp0 Hp1 Hts.
  - exists sim. split; [reflexivity|]. split; [exact Hwf|]. split; [reflexivity|].
    split; [exact Evel|].
    cbn [length]. change (inject_Z (Z.of_nat 0)) with 0.
    assert (E : pos sim 0 + 0 * (V0 sim * DT sim) == pos sim 0) by ring.
    rewrite E. symmetry. apply Qmod_small; assumption.
  - inversion Hts as [|? ? Ht Hrest]; subst.
    rewrite (run_steps_cons sim t ts false Hwf Hv Ht).
    pose proof (next_velocity_cruise sim Hv0 Evel) as Ev'.
    assert (Ep' : pos (step_spec sim false) 0
                  == Qmod (pos sim 0 + V0 sim * DT sim) (CIRC sim)).
    { rewrite pos_step_spec by exact HN. rewrite next_position_free.
      rewrite Ev'. reflexivity. }
    destruct (Qmod_bounds (pos sim 0 + V0 sim * DT sim) (CIRC sim) Hc) as [Hb0 Hb1].
    destruct (IH (step_spec sim false)) as (sim' & Hrun & Hwf' & HN' & Hvel & Hpos).
    + apply step_spec_wf.
    + apply step_spec_valid, Hv.
    + exact HN.
    + exact Hv0.
    + exact Hc.
    + rewrite vel_step_spec by exact HN. exact Ev'.
    + rewrite Ep'. exact Hb0.
    + rewrite Ep'. exact Hb1.
    + exact Hrest.
    + exists sim'. split; [exact Hrun|]. split; [exact Hwf'|]. split; [exact HN'|].
      split; [exact Hvel|].
      rewrite Hpos.
      change (V0 (step_spec sim false)) with (V0 sim).
      change (DT (step_spec sim false)) with (DT sim).
      change (CIRC (step_spec sim false)) with (CIRC sim).
      rewrite Ep'. rewrite (Qmod_add_mod _ _ _ Hc).
      apply Qmod_comp; [|reflexivity].
      cbn [length]. rewrite inject_nat_succ. ring.
Qed.

(** X13.  While the schedule answers [False], a leader that moves at
    [V0 > 0] keeps exactly that velocity, and after [n] steps stands
    [n * V0 * DT] further along the ring of length [CIRC > 0], whatever
    the followers do. *)
Theorem leader_cruise (sim : self) (ts : list Q) (s0 v0 : Q) :
  wf sim -> valid sim -> 0 < V0 sim -> 0 < CIRC sim ->
  v sim !! O = Some v0 -> v0 == V0 sim ->
  s sim !! O = Some s0 -> 0 <= s0 -> s0 < CIRC sim ->
  Forall (fun t => leader_stopped sim t = Ok false) ts ->
  exists sim' s' v',
    run_steps sim ts = Ok sim'
    /\ v sim' !! O = Some v' /\ v' == V0 sim
    /\ s sim' !! O = Some s'
    /\ s' == Qmod (s0 + inject_Z (Z.of_nat (length ts)) * (V0 sim * DT sim)) (CIRC sim).
Proof.
  intros Hwf Hv Hv0 Hc Hvel Evel Hpos Hp0 Hp1 Hts.
  assert (HN : (0 < N sim)%nat).
  { apply lookup_lt_Some in Hvel. destruct Hwf. lia. }
  assert (Ev : vel sim 0 = v0) by (unfold vel; rewrite Hvel; reflexivity).
  assert (Es : pos sim 0 = s0) by (unfold pos; rewrite Hpos; reflexivity).
  destruct (leader_cruise_run ts sim Hwf Hv HN Hv0 Hc)
    as (sim' & Hrun & Hwf' & HN' & Hv' & Hs'); try assumption;
    rewrite ?Ev, ?Es; try assumption.
  exists sim', (pos sim' 0), (vel sim' 0).
  split; [exact Hrun|].
  split; [apply lookup_vel; [exact Hwf' | lia]|].
  split; [exact Hv'|].
  split; [apply lookup_pos; [exact Hwf' | lia]|].
  rewrite Hs', Es. reflexivity.
Qed.

(** X14.  A free leader below the desired speed does not lose speed:
    with [A_MAX > 0], [DT > 0], [V0 > 0] and [0 <= v < V0], a step taken
    while the schedule answers [False] stores the velocity
    [v + A_MAX * (1 - (v / V0) ** 4) * DT], which is not below [v], and
    not above [V0] when [4 * A_MAX * DT <= V0].  (The gain is positive
    as a number; in binary64 it can be lost to rounding just below
    [V0], so no strict increase is claimed.) *)
Theorem leader_recovers_speed (sim : self) (t : Q) (v0 : Q) :
  wf sim -> valid sim ->
  0 < V0 sim -> 0 < A_MAX sim -> 0 < DT sim ->
  leader_stopped sim t = Ok false ->
  v sim !! O = Some v0 -> 0 <= v0 -> v0 < V0 sim ->
  exists sim' v',
    run_step sim t = Ok sim'
    /\ v sim' !! O = Some v'
    /\ v' == v0 + A_MAX sim * (1 - (v0 / V0 sim) ^ 4) * DT sim
    /\ v0 <= v'
    /\ (4 * A_MAX sim * DT sim <= V0 sim -> v' <= V0 sim).
Proof.
  intros Hwf Hv HV0 Ha Hdt Hfree Hvel H0 H1.
  assert (HN : (0 < N sim)%nat).
  { apply lookup_lt_Some in Hvel. destruct Hwf. lia. }
  assert (Ev : vel sim 0 = v0) by (unfold vel; rewrite Hvel; reflexivity).
  exists (step_spec sim false), (next_velocity sim false 0).
  split; [apply run_step_refines; [exact Hwf | right; apply Hv | exact Hfree]|].
  split; [apply step_spec_vel, HN|].
  assert (Hval : next_velocity sim false 0
                 = py_max 0 (v0 + A_MAX sim * (1 - (v0 / V0 sim) ^ 4) * DT sim)).
  { unfold next_velocity, pinned, euler_velocity, acceleration. cbn [andb].
    rewrite Ev. reflexivity. }
  assert (Hinc : 0 < A_MAX sim * (1 - (v0 / V0 sim) ^ 4) * DT sim).
  { set (u := v0 / V0 sim).
    assert (Hu0 : 0 <= u) by (unfold u; apply Qle_shift_div_l; lra).
    assert (Hu1 : u < 1) by (unfold u; apply Qlt_shift_div_r; lra).
    assert (Hu4 : u ^ 4 < 1).
    { rewrite Qpower_4. assert (0 <= u * u) by nra. assert (u * u < 1) by nra. nra. }
    set (u4 := u ^ 4) in *. clearbody u4.
    assert (0 < A_MAX sim * (1 - u4)) by nra. nra. }
  assert (Heq : next_velocity sim false 0
                == v0 + A_MAX sim * (1 - (v0 / V0 sim) ^ 4) * DT sim).
  { rewrite Hval. rewrite py_max_second by lra. reflexivity. }
  split; [exact Heq|]. split; [lra|].
  intros Hq. apply next_velocity_within; try assumption; try lra.
  - rewrite Ev. exact H0.
  - rewrite Ev. lra.
Qed.

(** ** Followers *)

(** X15.  The update of a follower is local and does not read the clock:
    in two objects with the same parameters, stepped at any two times,
    follower [i] receives the same new position and velocity whenever
    the two states agree on vehicles [i] and [i - 1]. *)
Theorem follower_update_local (sim1 sim2 : self) (t1 t2 : Q) (i : nat) :
  wf sim1 -> wf sim2 -> valid sim1 ->
  parameters sim1 = parameters sim2 ->
  (0 < i < N sim1)%nat ->
  s sim1 !! i = s sim2 !! i -> v sim1 !! i = v sim2 !! i ->
  s sim1 !! (i - 1)%nat = s sim2 !! (i - 1)%nat ->
  v sim1 !! (i - 1)%nat = v sim2 !! (i - 1)%nat ->
  exists sim1' sim2',
    run_step sim1 t1 = Ok sim1' /\ run_step sim2 t2 = Ok sim2'
    /\ s sim1' !! i = s sim2' !! i /\ v sim1' !! i = v sim2' !! i.
Proof.
  intros Hwf1 Hwf2 Hv1 Hp Hi Hsi Hvi Hsl Hvl.
  pose proof (parameters_fields sim1 sim2 Hp)
    as (EN & EC & ED & _ & EL & ES & EV & EA & EB & ET & _ & _ & ER).
  assert (Hv2 : valid sim2).
  { destruct Hv1 as [Hr Hab]. split; [rewrite <- ER | rewrite <- EA, <- EB]; assumption. }
  destruct (run_step_total sim1 t1 Hwf1 Hv1) as (b1 & _ & Hb1).
  destruct (run_step_total sim2 t2 Hwf2 Hv2) as (b2 & _ & Hb2).
  exists (step_spec sim1 b1), (step_spec sim2 b2).
  split; [exact Hb1|]. split; [exact Hb2|].
  assert (Hi2 : (0 < i < N sim2)%nat) by lia.
  rewrite !step_spec_pos, !step_spec_vel by lia.
  rewrite !next_position_follower, !next_velocity_follower by lia.
  assert (Efv : follower_velocity sim1 i = follower_velocity sim2 i).
  { unfold follower_velocity, idm, gap, dist, pos, vel.
    rewrite (leader_follower sim1 i Hi), (leader_follower sim2 i Hi2).
    rewrite Hsi, Hvi, Hsl, Hvl, EC, ED, EL, ES, EV, EA, EB, ET. reflexivity. }
  split; [|rewrite Efv; reflexivity].
  unfold follower_position. rewrite Efv. unfold pos. rewrite Hsi, EC, ED. reflexivity.
Qed.

(** X16.  A follower at rest with at most the jam distance ahead stays
    where it is: with [A_MAX >= 0], [DT > 0] and [S0 >= 0.01], if its
    velocity is zero and its gap is at most [S0], the step leaves its
    velocity at [0.0] and its position unchanged. *)
Theorem jam_standstill (sim : self) (t : Q) (i : nat) (v_i g : Q) :
  wf sim -> valid sim -> in_ring sim -> (0 < i < N sim)%nat ->
  0 < DT sim -> 0 <= A_MAX sim -> 0.01 <= S0 sim ->
  ~ V0 sim == 0 -> ~ math_sqrt (A_MAX sim * B_DECEL sim) == 0 ->
  v sim !! i = Some v_i -> v_i == 0 ->
  get_gap sim i (s sim) = Ok g -> g <= S0 sim ->
  exists sim' s_i s',
    run_step sim t = Ok sim'
    /\ v sim' !! i = Some 0
    /\ s sim !! i = Some s_i /\ s sim' !! i = Some s' /\ s' == s_i.
Proof.
  intros Hwf Hv Hring Hi Hdt Ha HS HV0 Hroot Hvel E0 Hgap Hg.
  assert (Hi' : (i < N sim)%nat) by lia.
  assert (Ev : vel sim i = v_i) by (unfold vel; rewrite Hvel; reflexivity).
  rewrite (get_gap_ok sim i Hwf Hi') in Hgap. injection Hgap as <-.
  destruct (run_step_total sim t Hwf Hv) as (b & _ & Hb).
  assert (Hidm : idm sim (vel sim i) (vel sim (leader sim i)) (gap sim i) <= 0).
  { unfold idm. rewrite Ev.
    set (vl := vel sim (leader sim i)).
    set (root := math_sqrt (A_MAX sim * B_DECEL sim)) in *.
    assert (Ex : v_i * T_HEADWAY sim + v_i * (v_i - vl) / (2 * root) == 0).
    { rewrite E0. field. exact Hroot. }
    assert (Estar : S0 sim + py_max 0 (v_i * T_HEADWAY sim + v_i * (v_i - vl) / (2 * root))
                    == S0 sim).
    { rewrite Ex. rewrite py_max_first by lra. ring. }
    assert (Eu : (v_i / V0 sim) ^ 4 == 0).
    { rewrite E0. rewrite Qpower_4. field. exact HV0. }
    rewrite Estar, Eu.
    pose proof (effective_gap_pos (gap sim i)) as He0.
    assert (He1 : py_max 0.01 (gap sim i) <= S0 sim) by (apply py_max_le; assumption).
    set (e := py_max 0.01 (gap sim i)) in *.
    assert (Hq : 1 <= S0 sim / e) by (apply Qle_shift_div_l; lra).
    assert (Hq2 : 1 <= (S0 sim / e) ^ 2) by (rewrite Qpower_2; nra).
    set (q2 := (S0 sim / e) ^ 2) in *. clearbody q2. nra. }
  assert (Hfv : follower_velocity sim i = 0).
  { unfold follower_velocity.
    set (a := idm sim _ _ _) in *. rewrite Ev.
    assert (He : py_max 0 (v_i + a * DT sim) = 0) by (apply py_max_first; nra).
    rewrite He.
    destruct (Qltb (gap sim i - 0.5) (0 * DT sim)) eqn:E; [|reflexivity].
    apply Qltb_lt in E. apply py_max_first.
    apply Qle_shift_div_r; [exact Hdt | lra]. }
  destruct (Hring _ _ (lookup_pos sim i Hwf Hi')) as [Hp0 Hp1].
  exists (step_spec sim b), (pos sim i), (follower_position sim i).
  split; [exact Hb|].
  split.
  { rewrite step_spec_vel by exact Hi'.
    rewrite next_velocity_follower by lia. rewrite Hfv. reflexivity. }
  split; [apply lookup_pos; assumption|].
  split.
  { rewrite step_spec_pos by exact Hi'.
    rewrite next_position_follower by lia. reflexivity. }
  unfold follower_position. rewrite Hfv.
  assert (E : pos sim i + 0 * DT sim == pos sim i) by ring.
  rewrite E. apply Qmod_small; assumption.
Qed.

(** X17.  After a step from a state whose positions lie in [[0, CIRC)],
    every vehicle, the pinned leader included, stands at its old
    position advanced by its new velocity times [DT], modulo [CIRC]. *)
Theorem position_follows_velocity (sim : self) (t : Q) (i : nat) :
  wf sim -> valid sim -> in_ring sim -> (i < N sim)%nat ->
  exists sim' s_i v' s',
    run_step sim t = Ok sim'
    /\ s sim !! i = Some s_i
    /\ v sim' !! i = Some v'
    /\ s sim' !! i = Some s'
    /\ s' == Qmod (s_i + v' * DT sim) (CIRC sim).
Proof.
  intros Hwf Hv Hring Hi.
  destruct (run_step_total sim t Hwf Hv) as (b & _ & Hb).
  exists (step_spec sim b), (pos sim i), (next_velocity sim b i), (next_position sim b i).
  split; [exact Hb|].
  split; [apply lookup_pos; assumption|].
  split; [apply step_spec_vel, Hi|].
  split; [apply step_spec_pos, Hi|].
  apply next_position_advance; assumption.
Qed.

(** ** The main loop *)

Lemma float_div_ok (x y : Q) : ~ y == 0 -> float_div x y = Ok (x / y).
Proof.
  intros H. unfold float_div.
  destruct (Qeq_bool y 0) eqn:E; [|reflexivity].
  apply Qeq_bool_iff in E. contradiction.
Qed.

Lemma float_div_raises (x y : Q) : y == 0 -> float_div x y = Raise ZeroDivisionError.
Proof. intros H. unfold float_div. apply Qeq_bool_iff in H. rewrite H. reflexivity. Qed.

(** One iteration whose loop condition holds. *)
Lemma run_from_iteration (fuel : nat) (sim : self) (t : Q) (frames : list frame) (b : bool) :
  wf sim -> valid sim -> t < SIM_TIME sim -> leader_stopped sim t = Ok b ->
  run_from (S fuel) sim t frames
  = let* q := float_div t (DT sim) in
    run_from fuel (step_spec sim b) (t + DT sim)
      (if (int q mod 2 =? 0)%Z then frames ++ [(t, s (step_spec sim b))] else frames).
Proof.
  intros Hwf Hv Ht Hb. cbn [run_from].
  apply Qltb_lt in Ht. rewrite Ht.
  rewrite (run_step_refines sim t b Hwf (or_intror (proj2 Hv)) Hb).
  reflexivity.
Qed.

(** X18.  With [DT] equal to zero and [SIM_TIME > 0], [run] performs the
    first step and then raises [ZeroDivisionError] in the frame test
    [int(t / self.DT)]. *)
Theorem run_zero_timestep_raises (sim : self) (fuel : nat) :
  wf sim -> valid sim -> DT sim == 0 -> 0 < SIM_TIME sim ->
  (exists sim', run_step sim 0 = Ok sim')
  /\ run (S fuel) sim = Raise ZeroDivisionError.
Proof.
  intros Hwf Hv Hdt Ht.
  destruct (run_step_total sim 0 Hwf Hv) as (b & Hb & Hstep).
  split; [eexists; exact Hstep|].
  unfold run. rewrite (run_from_iteration fuel sim 0 [] b Hwf Hv Ht Hb).
  rewrite (float_div_raises 0 (DT sim) Hdt). reflexivity.
Qed.






(** ** Symmetries of the car-following step *)

Lemma Qdiv_le_num (x y d : Q) : 0 < d -> x <= y -> x / d <= y / d.
Proof.
  intros Hd H. apply Qle_shift_div_r; [exact Hd|].
  assert (E : y / d * d == y) by (field; apply Qnonzero_of_pos, Hd).
  rewrite E. exact H.
Qed.

(** X22.  With [A_MAX >= 0], [S0 >= 0], a vehicle that does not move
    backwards, [V0] not zero and a positive square root, [idm_accel] is
    monotone in the
    leader's velocity: a faster leader never gives a smaller
    acceleration, all else equal. *)
Theorem idm_accel_monotone_in_leader_speed (sim : self) (v_curr vl1 vl2 g : Q) :
  0 <= A_MAX sim -> 0 <= A_MAX sim * B_DECEL sim -> 0 <= S0 sim ->
  0 <= v_curr -> ~ V0 sim == 0 -> 0 < math_sqrt (A_MAX sim * B_DECEL sim) ->
  vl1 <= vl2 ->
  exists a1 a2,
    idm_accel sim v_curr vl1 g = Ok a1
    /\ idm_accel sim v_curr vl2 g = Ok a2
    /\ a1 <= a2.
Proof.
  intros Ha Hab Hs Hv _ Hroot Hvl. rewrite !(idm_accel_ok sim _ _ _ Hab).
  eexists. eexists. split; [reflexivity|]. split; [reflexivity|].
  unfold idm.
  set (root := math_sqrt (A_MAX sim * B_DECEL sim)) in *.
  assert (Hin : v_curr * T_HEADWAY sim + v_curr * (v_curr - vl2) / (2 * root)
                <= v_curr * T_HEADWAY sim + v_curr * (v_curr - vl1) / (2 * root)).
  { assert (Hnum : v_curr * (v_curr - vl2) <= v_curr * (v_curr - vl1)) by nra.
    pose proof (Qdiv_le_num _ _ (2 * root) ltac:(lra) Hnum). lra. }
  pose proof (py_max_mono 0 _ _ Hin) as Hmax.
  set (m1 := py_max 0 (v_curr * T_HEADWAY sim + v_curr * (v_curr - vl1) / (2 * root))) in *.
  set (m2 := py_max 0 (v_curr * T_HEADWAY sim + v_curr * (v_curr - vl2) / (2 * root))) in *.
  pose proof (py_max_lower 0 (v_curr * T_HEADWAY sim + v_curr * (v_curr - vl2) / (2 * root)))
    as Hm2. fold m2 in Hm2.
  pose proof (effective_gap_pos g) as He.
  assert (Hq : (S0 sim + m2) / py_max 0.01 g <= (S0 sim + m1) / py_max 0.01 g).
  { apply Qdiv_le_num; [exact He | lra]. }
  assert (Hq0 : 0 <= (S0 sim + m2) / py_max 0.01 g).
  { apply Qdiv_nonneg; [lra | exact He]. }
  pose proof (Qsquare_le _ _ Hq0 Hq) as Hsq.
  set (q1 := ((S0 sim + m1) / py_max 0.01 g) ^ 2) in *.
  set (q2 := ((S0 sim + m2) / py_max 0.01 g) ^ 2) in *.
  set (u4 := (v_curr / V0 sim) ^ 4).
  clearbody q1 q2 u4. nra.
Qed.

Lemma idm_gap_comp (sim : self) (vc vl g g' : Q) :
  g == g' -> idm sim vc vl g == idm sim vc vl g'.
Proof. intros E. unfold idm. rewrite E. reflexivity. Qed.

Lemma follower_velocity_gap_comp (a b : self) (i : nat) :
  parameters a = parameters b ->
  vel a i = vel b i -> vel a (leader a i) = vel b (leader b i) ->
  gap a i == gap b i ->
  follower_velocity a i == follower_velocity b i.
Proof.
  intros Hp Evi Evl Eg.
  pose proof (parameters_fields a b Hp)
    as (_ & _ & ED & _ & _ & ES & EV & EA & EB & ET & _).
  unfold follower_velocity.
  set (ea := py_max 0 (vel a i + _ * DT a)).
  set (eb := py_max 0 (vel b i + _ * DT b)).
  assert (Ee : ea == eb).
  { unfold ea, eb.
    assert (Ei : idm a (vel a i) (vel a (leader a i)) (gap a i)
                 == idm b (vel b i) (vel b (leader b i)) (gap b i)).
    { rewrite (idm_gap_comp a _ _ _ _ Eg). unfold idm.
      rewrite Evi, Evl, ES, EV, EA, EB, ET. reflexivity. }
    rewrite Ei, Evi, ED. reflexivity. }
  assert (Et : Qltb (gap a i - 0.5) (ea * DT a) = Qltb (gap b i - 0.5) (eb * DT b)).
  { apply Qltb_comp; [rewrite Eg | rewrite Ee, ED]; reflexivity. }
  rewrite Et.
  destruct (Qltb (gap b i - 0.5) (eb * DT b)); [|exact Ee].
  rewrite Eg, ED. reflexivity.
Qed.

Lemma next_velocity_leader_eq (a b : self) (stopped : bool) :
  parameters a = parameters b -> vel a 0 = vel b 0 ->
  next_velocity a stopped 0 = next_velocity b stopped 0.
Proof.
  intros Hp Ev.
  pose proof (parameters_fields a b Hp)
    as (_ & _ & ED & _ & _ & _ & EV & EA & _).
  unfold next_velocity, pinned, euler_velocity, acceleration.
  rewrite Ev, ED, EV, EA. reflexivity.
Qed.

(** The ring distance depends on positions only up to a common shift. *)
Lemma dist_shift (a b : self) (c : Q) (i : nat) :
  wf a -> wf b -> in_ring a -> in_ring b -> 0 < CIRC a ->
  N a = N b -> CIRC a = CIRC b -> (i < N a)%nat ->
  (forall j, (j < N a)%nat -> pos b j == Qmod (pos a j + c) (CIRC a)) ->
  dist b i == dist a i.
Proof.
  intros Hwfa Hwfb Hra Hrb Hc EN EC Hi Hshift.
  assert (El : leader b i = leader a i) by (unfold leader; rewrite EN; reflexivity).
  pose proof (leader_lt a i Hi) as Hl.
  destruct (dist_bounds a i Hwfa Hra Hi) as (Hd0 & Hd1 & e & He).
  pose proof (Hshift i Hi) as Si. pose proof (Hshift _ Hl) as Sl.
  destruct (Qmod_decompose (pos a i + c) (CIRC a)) as [ki Hki].
  destruct (Qmod_decompose (pos a (leader a i) + c) (CIRC a)) as [kl Hkl].
  rewrite Hki in Si. rewrite Hkl in Sl.
  assert (Hib : (i < N b)%nat) by lia.
  assert (Hlb : (leader a i < N b)%nat) by lia.
  destruct (Hrb _ _ (lookup_pos b i Hwfb Hib)) as [Hi0 Hi1].
  destruct (Hrb _ _ (lookup_pos b _ Hwfb Hlb)) as [Hl0 Hl1].
  unfold dist at 1. rewrite El, <- EC.
  rewrite <- EC in Hi1, Hl1.
  apply (wrap_unique (CIRC a) _ (dist a i) (e + kl - ki)%Z); try assumption.
  - unfold Z.sub. rewrite !inject_Z_plus, inject_Z_opp. rewrite Sl, Si, He. ring.
  - lra.
  - lra.
Qed.

(** X23.  The step does not depend on where the origin of the ring is.
    If two objects with the same parameters and velocities differ by a
    common shift [c] of all positions (modulo [CIRC > 0]), then after a
    step at the same time their velocities are equal as numbers and
    their positions still differ by the shift [c]. *)
Theorem rotation_invariance (sim1 sim2 : self) (t c : Q) :
  wf sim1 -> wf sim2 -> valid sim1 -> in_ring sim1 -> 0 < CIRC sim1 ->
  parameters sim1 = parameters sim2 -> v sim1 = v sim2 ->
  (forall i, (i < N sim1)%nat -> pos sim2 i == Qmod (pos sim1 i + c) (CIRC sim1)) ->
  exists sim1' sim2',
    run_step sim1 t = Ok sim1' /\ run_step sim2 t = Ok sim2'
    /\ Forall2 Qeq (v sim1') (v sim2')
    /\ forall i, (i < N sim1)%nat ->
         pos sim2' i == Qmod (pos sim1' i + c) (CIRC sim1).
Proof.
  intros Hwf1 Hwf2 Hv1 Hr1 Hc Hp Ev Hshift.
  pose proof (parameters_fields sim1 sim2 Hp)
    as (EN & EC & ED & _ & EL & _ & _ & EA & EB & _ & ESD & EFS & ER).
  assert (Hv2 : valid sim2).
  { destruct Hv1 as [Hr Hab]. split; [rewrite <- ER | rewrite <- EA, <- EB]; assumption. }
  assert (Hr2 : in_ring sim2).
  { intros i x Hx.
    assert (Hi : (i < N sim1)%nat).
    { apply lookup_lt_Some in Hx. destruct Hwf2. lia. }
    assert (Ex : x = pos sim2 i) by (unfold pos; rewrite Hx; reflexivity).
    rewrite Ex, (Hshift i Hi), <- EC. apply Qmod_bounds, Hc. }
  destruct (run_step_total sim1 t Hwf1 Hv1) as (b & Hb & Hstep1).
  assert (Hb2 : leader_stopped sim2 t = Ok b).
  { rewrite <- Hb. unfold leader_stopped. rewrite ESD, EFS, ER. reflexivity. }
  pose proof (run_step_refines sim2 t b Hwf2 (or_intror (proj2 Hv2)) Hb2) as Hstep2.
  assert (Evel : forall i, vel sim1 i = vel sim2 i)
    by (intros i; unfold vel; rewrite Ev; reflexivity).
  assert (Enext : forall i, (i < N sim1)%nat ->
            next_velocity sim1 b i == next_velocity sim2 b i).
  { intros i Hi. destruct i as [|i].
    - rewrite (next_velocity_leader_eq sim1 sim2 b Hp (Evel O)). reflexivity.
    - rewrite !next_velocity_follower by lia.
      apply follower_velocity_gap_comp; try assumption.
      + apply Evel.
      + unfold leader. rewrite EN. apply Evel.
      + unfold gap. rewrite EL.
        rewrite (dist_shift sim1 sim2 c (S i)); try assumption. reflexivity. }
  exists (step_spec sim1 b), (step_spec sim2 b).
  split; [exact Hstep1|]. split; [exact Hstep2|]. split.
  - cbn [step_spec assign v]. rewrite <- EN.
    apply Forall2_fmap, Forall_Forall2_diag, Forall_forall.
    intros i Hi. apply elem_of_seq in Hi. apply Enext. lia.
  - intros i Hi.
    rewrite !pos_step_spec by lia.
    rewrite (next_position_advance sim2 b i Hwf2 Hr2 ltac:(lia)).
    rewrite (next_position_advance sim1 b i Hwf1 Hr1 Hi).
    rewrite <- (Enext i Hi), <- EC, <- ED, (Hshift i Hi).
    rewrite !(Qmod_add_mod _ _ _ Hc).
    apply Qmod_comp; [ring | reflexivity].
Qed.

(** ** What a step leaves alone *)

Lemma for_in_preserves {S : Type} (I : S -> Prop) (body : nat -> S -> result S)
    (l : list nat) (st st' : S) :
  (forall i st1 st2, I st1 -> body i st1 = Ok st2 -> I st2) ->
  I st -> for_in l body st = Ok st' -> I st'.
Proof.
  intros Hbody. revert st.
  induction l as [|i l IH]; intros st HI Hrun; cbn [for_in] in Hrun.
  - injection Hrun as <-. exact HI.
  - destruct (body i st) as [st1|e] eqn:E; [|discriminate Hrun].
    cbn [bind] in Hrun. exact (IH st1 (Hbody i st st1 HI E) Hrun).
Qed.

Lemma setitem_length (a a' : list Q) (i : nat) (x : Q) :
  setitem a i x = Ok a' -> length a' = length a.
Proof.
  unfold setitem. destruct (i <? length a)%nat; [|discriminate].
  intros H. injection H as <-. apply length_insert.
Qed.

(** Takes a successful run of binds apart, one call at a time. *)
Ltac bind_cases H :=
  repeat match type of H with
  | bind ?m _ = Ok _ =>
      let E := fresh "E" in
      destruct m eqn:E; cbn [bind] in H; [|discriminate H]
  | (if ?c then _ else _) = Ok _ => destruct c
  end.

Ltac lengths :=
  repeat match goal with
  | E : setitem _ _ _ = Ok _ |- _ => apply setitem_length in E
  end;
  cbn [s_new v_new accel] in *; split; congruence.

Lemma accel_body_lengths (sim : self) (stopped : bool) (n m : nat) (i : nat)
    (loc loc' : locals) :
  length (s_new loc) = n /\ length (v_new loc) = m ->
  accel_body sim stopped i loc = Ok loc' ->
  length (s_new loc') = n /\ length (v_new loc') = m.
Proof.
  intros [Hs Hv] H. unfold accel_body in H.
  bind_cases H; injection H as <-; lengths.
Qed.

Lemma euler_body_lengths (sim : self) (stopped : bool) (n m : nat) (i : nat)
    (loc loc' : locals) :
  length (s_new loc) = n /\ length (v_new loc) = m ->
  euler_body sim stopped i loc = Ok loc' ->
  length (s_new loc') = n /\ length (v_new loc') = m.
Proof.
  intros [Hs Hv] H. unfold euler_body in H.
  bind_cases H; injection H as <-; lengths.
Qed.

(** X24.  Whenever [run_step] returns, from any object at all, it has
    changed no parameter and has left [self.s] and [self.v] with the
    lengths they had. *)
Theorem run_step_frame (sim sim' : self) (t : Q) :
  run_step sim t = Ok sim' ->
  parameters sim' = parameters sim
  /\ length (s sim') = length (s sim)
  /\ length (v sim') = length (v sim).
Proof.
  intros H. unfold run_step, for_range in H.
  destruct (leader_stopped sim t) as [b|e]; [|discriminate H].
  cbn [bind] in H.
  destruct (for_in (seq 0 (N sim)) (accel_body sim b)
              (Locals (s sim) (v sim) (zeros (N sim)))) as [loc1|e] eqn:E1;
    [|discriminate H].
  cbn [bind] in H.
  destruct (for_in (seq 0 (N sim)) (euler_body sim b) loc1) as [loc2|e] eqn:E2;
    [|discriminate H].
  cbn [bind] in H. injection H as <-.
  pose (I := fun loc : locals =>
               length (s_new loc) = length (s sim)
               /\ length (v_new loc) = length (v sim)).
  assert (H1 : I loc1).
  { apply (for_in_preserves I (accel_body sim b) (seq 0 (N sim))
             (Locals (s sim) (v sim) (zeros (N sim))) loc1); [| split; reflexivity | exact E1].
    intros i st1 st2 HI Hb. exact (accel_body_lengths sim b _ _ i st1 st2 HI Hb). }
  assert (H2 : I loc2).
  { apply (for_in_preserves I (euler_body sim b) (seq 0 (N sim)) loc1 loc2);
      [| exact H1 | exact E2].
    intros i st1 st2 HI Hb. exact (euler_body_lengths sim b _ _ i st1 st2 HI Hb). }
  split; [reflexivity|]. exact H2.
Qed.

(** ** The first frame *)

Lemma run_from_appends (fuel : nat) (sim : self) (t : Q) (frames : list frame)
    (st : loop_state) :
  run_from fuel sim t frames = Ok st ->
  exists rest, frames_of st = frames ++ rest.
Proof.
  revert sim t frames.
  induction fuel as [|fuel IH]; intros sim t frames H; cbn [run_from] in H.
  - injection H as <-. exists []. symmetry. apply app_nil_r.
  - destruct (Qltb t (SIM_TIME sim)).
    + destruct (run_step sim t) as [sim1|e]; [|discriminate H].
      cbn [bind] in H.
      destruct (float_div t (DT sim1)) as [q|e]; [|discriminate H].
      cbn [bind] in H.
      destruct (IH _ _ _ H) as [rest Hrest].
      destruct (int q mod 2 =? 0)%Z.
      * exists ((t, s sim1) :: rest). rewrite Hrest, <- app_assoc. reflexivity.
      * exists rest. exact Hrest.
    + injection H as <-. exists []. symmetry. apply app_nil_r.
Qed.

Lemma run_step_assign (sim sim' : self) (t : Q) :
  run_step sim t = Ok sim' -> exists s' v', sim' = assign sim s' v'.
Proof.
  intros H. unfold run_step in H.
  bind_cases H. injection H as <-. eexists. eexists. reflexivity.
Qed.

(** X25.  The initial configuration is never drawn.  When the loop runs
    at all ([SIM_TIME > 0], [DT] not zero), the first frame [run] draws
    is tagged [t = 0.0] and shows the positions after the first step. *)
Theorem run_first_frame (sim : self) (fuel : nat) (st : loop_state) :
  0 < SIM_TIME sim -> ~ DT sim == 0 ->
  run (S fuel) sim = Ok st ->
  exists sim1 rest,
    run_step sim 0 = Ok sim1
    /\ frames_of st = (0, s sim1) :: rest.
Proof.
  intros Ht Hdt H. unfold run in H. cbn [run_from] in H.
  apply Qltb_lt in Ht. rewrite Ht in H.
  destruct (run_step sim 0) as [sim1|e] eqn:E1; [|discriminate H].
  cbn [bind] in H.
  assert (ED : DT sim1 = DT sim).
  { destruct (run_step_assign sim sim1 0 E1) as (s1 & v1 & ->). reflexivity. }
  rewrite float_div_ok in H by (rewrite ED; exact Hdt).
  cbn [bind] in H.
  assert (E0 : (int (0 / DT sim1) mod 2 =? 0)%Z = true).
  { assert (Eq : 0 / DT sim1 == 0) by (unfold Qdiv; ring).
    unfold int. rewrite (Qltb_comp _ _ Eq 0 0 ltac:(reflexivity)).
    assert (Ef : Qfloor (0 / DT sim1) = 0%Z).
    { rewrite (Qfloor_comp _ _ Eq). reflexivity. }
    change (Qltb 0 0) with false. cbv iota. rewrite Ef. reflexivity. }
  rewrite E0 in H. cbn [app] in H.
  destruct (run_from_appends _ _ _ _ _ H) as [rest Hrest].
  exists sim1, rest. split; [reflexivity | exact Hrest].
Qed.

(** ** A step on an object whose arrays are too short *)

Lemma getitem_cases (a : list Q) (i : nat) :
  (exists x, getitem a i = Ok x) \/ getitem a i = Raise IndexError.
Proof. unfold getitem. destruct (a !! i); [left; eexists; reflexivity | right; reflexivity]. Qed.

Lemma setitem_cases (a : list Q) (i : nat) (x : Q) :
  (exists a', setitem a i x = Ok a') \/ setitem a i x = Raise IndexError.
Proof.
  unfold setitem. destruct (i <? length a)%nat;
    [left; eexists; reflexivity | right; reflexivity].
Qed.

Lemma getitem_short (a : list Q) (i : nat) :
  (length a <= i)%nat -> getitem a i = Raise IndexError.
Proof. intros H. unfold getitem. rewrite lookup_ge_None_2 by exact H. reflexivity. Qed.

Lemma leader_index_returns (sim : self) (i : nat) :
  (0 < N sim)%nat -> leader_index sim i = Ok (leader sim i).
Proof.
  intros H. unfold leader_index, int_mod, leader.
  destruct (N sim); [lia | reflexivity].
Qed.

Lemma get_gap_cases (sim : self) (i : nat) (s_curr : list Q) :
  (0 < N sim)%nat ->
  (exists g, get_gap sim i s_curr = Ok g) \/ get_gap sim i s_curr = Raise IndexError.
Proof.
  intros HN. unfold get_gap. rewrite (leader_index_returns sim i HN). cbn [bind].
  destruct (getitem_cases s_curr (leader sim i)) as [[x ->]| ->]; [|right; reflexivity].
  cbn [bind].
  destruct (getitem_cases s_curr i) as [[y ->]| ->]; [|right; reflexivity].
  cbn [bind]. left. eexists. reflexivity.
Qed.

Lemma get_gap_short (sim : self) (i : nat) (s_curr : list Q) :
  (0 < N sim)%nat -> (length s_curr <= i)%nat ->
  get_gap sim i s_curr = Raise IndexError.
Proof.
  intros HN Hi. unfold get_gap. rewrite (leader_index_returns sim i HN). cbn [bind].
  destruct (getitem_cases s_curr (leader sim i)) as [[x ->]| ->]; [|reflexivity].
  cbn [bind]. rewrite (getitem_short s_curr i Hi). reflexivity.
Qed.

(** Works through a run of binds each of which returns or raises
    [IndexError]. *)
Ltac index_cases :=
  repeat first
    [ match goal with
      | |- context [bind (getitem ?a ?i) _] =>
          destruct (getitem_cases a i) as [[? ->]| ->]; cbn [bind]; [|right; reflexivity]
      | |- context [bind (setitem ?a ?i ?x) _] =>
          destruct (setitem_cases a i x) as [[? ->]| ->]; cbn [bind]; [|right; reflexivity]
      | |- context [if ?c then _ else _] => destruct c
      end ];
  try (left; eexists; reflexivity).

Lemma accel_body_cases (sim : self) (stopped : bool) (i : nat) (loc : locals) :
  (0 < N sim)%nat -> 0 <= A_MAX sim * B_DECEL sim ->
  (exists loc', accel_body sim stopped i loc = Ok loc')
  \/ accel_body sim stopped i loc = Raise IndexError.
Proof.
  intros HN Hab. unfold accel_body.
  destruct (i =? 0)%nat.
  - destruct stopped; index_cases.
  - rewrite (leader_index_returns sim i HN). cbn [bind].
    destruct (get_gap_cases sim i (s sim) HN) as [[g ->]| ->]; [|right; reflexivity].
    cbn [bind].
    destruct (getitem_cases (v sim) i) as [[x ->]| ->]; [|right; reflexivity].
    cbn [bind].
    destruct (getitem_cases (v sim) (leader sim i)) as [[y ->]| ->]; [|right; reflexivity].
    cbn [bind]. rewrite (idm_accel_ok sim _ _ _ Hab). cbn [bind].
    index_cases.
Qed.

Lemma accel_body_short (sim : self) (stopped : bool) (i : nat) (loc : locals) :
  (0 < N sim)%nat ->
  (length (v sim) <= i)%nat \/ ((0 < i)%nat /\ (length (s sim) <= i)%nat) ->
  accel_body sim stopped i loc = Raise IndexError.
Proof.
  intros HN Hshort. unfold accel_body.
  destruct (Nat.eqb_spec i 0) as [->|Hi].
  - destruct Hshort as [Hv|[Hi _]]; [|lia].
    rewrite (getitem_short (v sim) 0 Hv). destruct stopped; reflexivity.
  - rewrite (leader_index_returns sim i HN). cbn [bind].
    destruct (get_gap_cases sim i (s sim) HN) as [[g Hg]|Hg].
    + rewrite Hg. cbn [bind].
      destruct Hshort as [Hv|[_ Hs]].
      * rewrite (getitem_short (v sim) i Hv). reflexivity.
      * rewrite (get_gap_short sim i (s sim) HN Hs) in Hg. discriminate Hg.
    + rewrite Hg. reflexivity.
Qed.

Lemma for_in_index_error {S : Type} (body : nat -> S -> result S) (n a k : nat) (st : S) :
  (forall j st1, (exists st2, body j st1 = Ok st2) \/ body j st1 = Raise IndexError) ->
  (a <= k < a + n)%nat ->
  (forall st1, body k st1 = Raise IndexError) ->
  for_in (seq a n) body st = Raise IndexError.
Proof.
  intros Hcases. revert a st.
  induction n as [|n IH]; intros a st Hk Hraise; [lia|].
  cbn [seq for_in].
  destruct (Nat.eq_dec a k) as [->|Hne].
  - rewrite Hraise. reflexivity.
  - destruct (Hcases a st) as [[st2 ->]| ->]; [|reflexivity].
    cbn [bind]. apply IH; [lia | exact Hraise].
Qed.

(** X26.  A step on an object whose arrays are too short for [N] fails
    with [IndexError] and nothing else: with parameters under which no
    other exception is possible, [run_step] raises [IndexError] when
    [self.v] holds fewer than [N] entries, and when there is a follower
    and [self.s] holds fewer than [N] entries. *)
Theorem run_step_short_arrays (sim : self) (t : Q) :
  valid sim ->
  (length (v sim) < N sim)%nat
  \/ ((2 <= N sim)%nat /\ (length (s sim) < N sim)%nat) ->
  run_step sim t = Raise IndexError.
Proof.
  intros Hv Hshort.
  assert (HN : (0 < N sim)%nat) by (destruct Hshort as [H|[H _]]; lia).
  destruct (leader_stopped_total sim t (proj1 Hv)) as [b Hb].
  unfold run_step, for_range. rewrite Hb. cbn [bind].
  assert (Hk : exists k, (k < N sim)%nat
                         /\ ((length (v sim) <= k)%nat
                             \/ ((0 < k)%nat /\ (length (s sim) <= k)%nat))).
  { destruct Hshort as [H|[H1 H2]].
    - exists (length (v sim)). split; [exact H | left; lia].
    - exists (Nat.max 1 (length (s sim))). split; [lia | right; lia]. }
  destruct Hk as (k & Hk & Hbad).
  rewrite (for_in_index_error (accel_body sim b) (N sim) 0 k); [reflexivity | | |].
  - intros j st1. apply accel_body_cases; [exact HN | apply Hv].
  - lia.
  - intros st1. exact (accel_body_short sim b k st1 HN Hbad).
Qed.

(** ** A whole run *)


End Methods.

(** ** Concrete runs *)

Lemma simulacionPoo_valid : valid simulacionPoo.
Proof. split; simpl; lra. Qed.



Lemma velocity_nonnegative_witness :
  exists sim',
    run_step float_sqrt ScriptFinal 2 = Ok sim'
    /\ forall i, (i < N ScriptFinal)%nat -> exists x, v sim' !! i = Some x /\ 0 <= x.
Proof.
  apply (velocity_nonnegative float_sqrt ScriptFinal 2).
  - apply init_wf.
  - split; simpl; lra.
Defined.

Lemma leader_stopped_schedule_witness :
  leader_stopped ScriptFinal 1 = Ok false
  /\ leader_stopped ScriptFinal 20 = Ok true
  /\ Qmod (20 - FIRST_STOP ScriptFinal) (REPEAT_INTERVAL ScriptFinal)
     < STOP_DURATION ScriptFinal.
Proof.
  destruct (leader_stopped_schedule ScriptFinal 1) as [Hbefore _]; [simpl; lra|].
  destruct (leader_stopped_schedule ScriptFinal 20) as [_ Hfrom]; [simpl; lra|].
  split; [apply Hbefore; simpl; lra|].
  destruct Hfrom as (b & Hb & Hiff); [simpl; lra|].
  assert (Hlt : Qmod (20 - FIRST_STOP ScriptFinal) (REPEAT_INTERVAL ScriptFinal)
                < STOP_DURATION ScriptFinal) by (vm_compute; reflexivity).
  split; [|exact Hlt].
  rewrite Hb. f_equal. apply Hiff, Hlt.
Defined.

(** The schedule of [ScriptFinal.py]: braking from 2 s for 6 s, every
    15 s. *)
Example ScriptFinal_schedule :
  map (leader_stopped ScriptFinal) [0; 1.95; 2; 7.95; 8; 16.95; 17; 22.95; 23]
  = map Ok [false; false; true; true; false; false; true; true; false].
Proof. reflexivity. Qed.

Lemma pinned_leader_frame_witness :
  exists sim',
    run_step float_sqrt small_ring_at_rest 2 = Ok sim'
    /\ v sim' !! O = Some 0
    /\ s sim' !! O = s small_ring_at_rest !! O
    /\ forall i, (0 < i < N small_ring_at_rest)%nat ->
         s sim' !! i = Some (follower_position float_sqrt small_ring_at_rest i)
         /\ v sim' !! i = Some (follower_velocity float_sqrt small_ring_at_rest i).
Proof.
  apply (pinned_leader_frame float_sqrt small_ring_at_rest 2 0).
  - split; reflexivity.
  - split; simpl; lra.
  - reflexivity.
  - reflexivity.
  - reflexivity.
Defined.

Lemma leader_independent_of_followers_witness :
  exists sim1' sim2',
    run_step float_sqrt small_ring 0 = Ok sim1'
    /\ run_step float_sqrt small_ring_moved 0 = Ok sim2'
    /\ s sim1' !! O = s sim2' !! O /\ v sim1' !! O = v sim2' !! O.
Proof.
  apply (leader_independent_of_followers float_sqrt small_ring small_ring_moved 0).
  - apply init_wf.
  - split; reflexivity.
  - split; simpl; lra.
  - reflexivity.
  - reflexivity.
  - reflexivity.
Defined.


Lemma single_vehicle_gap_witness :
  exists g sim' g',
    get_gap single 0 (s single) = Ok g /\ g == - L_VEHICLE single
    /\ run_step float_sqrt single 0 = Ok sim'
    /\ get_gap sim' 0 (s sim') = Ok g' /\ g' == - L_VEHICLE single.
Proof.
  apply (single_vehicle_gap float_sqrt single 0).
  - reflexivity.
  - apply init_wf.
  - simpl; lra.
Defined.


Lemma float_sqrt_comp : Proper (Qeq ==> Qeq) float_sqrt.
Proof.
  intros x y H. unfold float_sqrt.
  assert (E : Qfloor (x * inject_Z (2 ^ 104)) = Qfloor (y * inject_Z (2 ^ 104)))
    by (rewrite H; reflexivity).
  rewrite E. reflexivity.
Qed.

Lemma reduce_sim_eq (sim : self) : sim_eq sim (reduce sim).
Proof.
  constructor; try reflexivity; simpl.
  - induction (s sim); constructor; [symmetry; apply Qred_correct | assumption].
  - induction (v sim); constructor; [symmetry; apply Qred_correct | assumption].
Qed.

Lemma run_deterministic_witness :
  run_trace float_sqrt simulacionPoo [0; 0.05]
  = run_trace float_sqrt (init 22 230 0.05 1200 4 2 10 1 4 1.6 2 2 10) [0; 0.05]
  /\ exists tr1 tr2,
       run_trace float_sqrt simulacionPoo [0; 0.05] = Ok tr1
       /\ run_trace float_sqrt (reduce simulacionPoo) [0; 0.05] = Ok tr2
       /\ trace_eq tr1 tr2.
Proof.
  destruct (run_deterministic float_sqrt simulacionPoo
              (init 22 230 0.05 1200 4 2 10 1 4 1.6 2 2 10) [0; 0.05]) as [Hsame _].
  destruct (run_deterministic float_sqrt simulacionPoo (reduce simulacionPoo) [0; 0.05])
    as [_ Hnum].
  split; [exact (Hsame eq_refl eq_refl eq_refl)|].
  apply Hnum.
  - exact float_sqrt_comp.
  - apply reduce_sim_eq.
  - apply init_wf.
  - split; simpl; lra.
Defined.



(** C7 fails as stated.  With one vehicle [get_gap] returns [-4], not
    [CIRC - L_VEHICLE = 226]. *)
Lemma single_vehicle_gap_is_not_circumference :
  exists g,
    get_gap single 0 (s single) = Ok g
    /\ g == - 4 /\ ~ g == CIRC single - L_VEHICLE single.
Proof.
  eexists. split; [vm_compute; reflexivity|].
  split; [reflexivity | intros H; discriminate H].
Qed.


(** ** The ring of [simulacionPoo.py] under its own driver *)

















(** ** The further properties on concrete rings *)

Lemma small_ring_valid : valid small_ring.
Proof. split; simpl; lra. Qed.

Lemma small_ring_in_ring : in_ring small_ring.
Proof. apply fresh_in_ring; [apply init_fresh | simpl; lra]. Qed.

Lemma simulacionPoo_in_ring : in_ring simulacionPoo.
Proof. apply fresh_in_ring; [apply init_fresh | simpl; lra]. Qed.

Lemma get_gap_range_witness :
  exists g, get_gap simulacionPoo 0 (s simulacionPoo) = Ok g
            /\ - L_VEHICLE simulacionPoo <= g
            /\ g <= CIRC simulacionPoo - L_VEHICLE simulacionPoo.
Proof.
  apply (get_gap_range simulacionPoo 0 (s simulacionPoo)).
  - reflexivity.
  - exact simulacionPoo_in_ring.
  - simpl; lia.
Defined.

Lemma fresh_gap_witness :
  exists g, get_gap simulacionPoo 1 (s simulacionPoo) = Ok g /\ g == 230 - 230 / 22 - 4.
Proof.
  apply (fresh_gap simulacionPoo 1).
  - apply init_fresh.
  - simpl; lra.
  - simpl; lia.
Defined.

Lemma idm_accel_at_most_free_road_witness :
  exists a, idm_accel float_sqrt simulacionPoo 8 10 3 = Ok a
            /\ a <= A_MAX simulacionPoo * (1 - (8 / V0 simulacionPoo) ^ 4)
            /\ a <= A_MAX simulacionPoo.
Proof.
  apply (idm_accel_at_most_free_road float_sqrt simulacionPoo 8 10 3).
  - simpl; lra.
  - simpl; lra.
  - vm_compute. intros H; discriminate H.
  - vm_compute. reflexivity.
Defined.

Lemma idm_accel_monotone_in_gap_witness :
  exists a1 a2,
    idm_accel float_sqrt simulacionPoo 8 10 3 = Ok a1
    /\ idm_accel float_sqrt simulacionPoo 8 10 30 = Ok a2
    /\ a1 <= a2.
Proof.
  apply (idm_accel_monotone_in_gap float_sqrt simulacionPoo 8 10 3 30).
  - simpl; lra.
  - simpl; lra.
  - simpl; lra.
  - vm_compute. intros H; discriminate H.
  - vm_compute. reflexivity.
  - lra.
Defined.

Lemma idm_accel_monotone_in_leader_speed_witness :
  exists a1 a2,
    idm_accel float_sqrt simulacionPoo 8 0 30 = Ok a1
    /\ idm_accel float_sqrt simulacionPoo 8 10 30 = Ok a2
    /\ a1 <= a2.
Proof.
  apply (idm_accel_monotone_in_leader_speed float_sqrt simulacionPoo 8 0 10 30).
  - simpl; lra.
  - simpl; lra.
  - simpl; lra.
  - lra.
  - vm_compute. intros H; discriminate H.
  - vm_compute. reflexivity.
  - lra.
Defined.

Lemma leader_stopped_windows_witness :
  leader_stopped ScriptFinal 20 = Ok true /\ leader_stopped ScriptFinal 25 = Ok false.
Proof.
  split.
  - apply (leader_stopped_windows ScriptFinal 20 1); vm_compute; try reflexivity;
      intros H; discriminate H.
  - apply (leader_stopped_windows ScriptFinal 25 1); vm_compute; try reflexivity;
      intros H; discriminate H.
Defined.

Lemma leader_stopped_degenerate_witness :
  leader_stopped small_ring_always_stopped 7 = Ok true.
Proof.
  apply (leader_stopped_degenerate small_ring_always_stopped 7); vm_compute;
    try reflexivity; intros H; discriminate H.
Defined.

Lemma leader_stopped_periodic_witness :
  leader_stopped ScriptFinal (3 + inject_Z (Z.of_nat 2) * REPEAT_INTERVAL ScriptFinal)
  = leader_stopped ScriptFinal 3.
Proof.
  apply (leader_stopped_periodic ScriptFinal 3 2); vm_compute;
    try reflexivity; intros H; discriminate H.
Defined.


Lemma velocities_within_desired_speed_witness :
  exists sim',
    run_steps float_sqrt simulacionPoo [0; 0.05] = Ok sim'
    /\ length (v sim') = N simulacionPoo
    /\ forall i x, v sim' !! i = Some x -> 0 <= x /\ x <= V0 simulacionPoo.
Proof.
  apply (velocities_within_desired_speed float_sqrt simulacionPoo [0; 0.05]).
  - apply init_wf.
  - exact simulacionPoo_valid.
  - simpl; lra.
  - simpl; lra.
  - simpl; lra.
  - simpl; lra.
  - apply fresh_within_desired_speed; [apply init_fresh | simpl; lra].
Defined.

Lemma safeguard_never_accelerates_witness :
  exists sim' g v_i v_leader a v',
    run_step float_sqrt simulacionPoo 0 = Ok sim'
    /\ get_gap simulacionPoo 1 (s simulacionPoo) = Ok g
    /\ v simulacionPoo !! 1%nat = Some v_i
    /\ v simulacionPoo !! (1 - 1)%nat = Some v_leader
    /\ idm_accel float_sqrt simulacionPoo v_i v_leader g = Ok a
    /\ v sim' !! 1%nat = Some v'
    /\ v' <= py_max 0 (v_i + a * DT simulacionPoo)
    /\ (py_max 0 (v_i + a * DT simulacionPoo) * DT simulacionPoo <= g - 0.5 ->
        v' = py_max 0 (v_i + a * DT simulacionPoo)).
Proof.
  apply (safeguard_never_accelerates float_sqrt simulacionPoo 0 1).
  - apply init_wf.
  - exact simulacionPoo_valid.
  - simpl; lra.
  - simpl; lia.
Defined.

Lemma leader_braking_witness :
  exists sim' v',
    run_steps float_sqrt ScriptFinal [2; 2.05; 2.1] = Ok sim'
    /\ v sim' !! O = Some v'
    /\ v' == 13.5.
Proof.
  destruct (leader_braking float_sqrt ScriptFinal [2; 2.05; 2.1] 15)
    as (sim' & v' & Hrun & Hv & E).
  - apply init_wf.
  - split; simpl; lra.
  - simpl; lra.
  - reflexivity.
  - lra.
  - repeat constructor.
  - exists sim', v'. split; [exact Hrun|]. split; [exact Hv|].
    rewrite E. vm_compute. reflexivity.
Defined.

Lemma leader_cruise_witness :
  exists sim' s' v',
    run_steps float_sqrt simulacionPoo [0; 0.05; 0.1] = Ok sim'
    /\ v sim' !! O = Some v' /\ v' == 10
    /\ s sim' !! O = Some s' /\ s' == 1.5.
Proof.
  destruct (leader_cruise float_sqrt simulacionPoo [0; 0.05; 0.1]
              (pos simulacionPoo 0) 10)
    as (sim' & s' & v' & Hrun & Hv & Ev & Hs & Es).
  - apply init_wf.
  - exact simulacionPoo_valid.
  - simpl; lra.
  - simpl; lra.
  - reflexivity.
  - reflexivity.
  - reflexivity.
  - vm_compute. intros H; discriminate H.
  - vm_compute. reflexivity.
  - repeat constructor.
  - exists sim', s', v'.
    split; [exact Hrun|]. split; [exact Hv|]. split; [exact Ev|]. split; [exact Hs|].
    rewrite Es. vm_compute. reflexivity.
Defined.

Lemma leader_recovers_speed_witness :
  exists sim' v',
    run_step float_sqrt small_ring_at_rest 0 = Ok sim'
    /\ v sim' !! O = Some v'
    /\ v' == 0.05
    /\ 0 <= v' /\ v' <= V0 small_ring_at_rest.
Proof.
  destruct (leader_recovers_speed float_sqrt small_ring_at_rest 0 0)
    as (sim' & v' & Hrun & Hv & Heq & Hup & Hlim).
  - split; reflexivity.
  - split; simpl; lra.
  - simpl; lra.
  - simpl; lra.
  - simpl; lra.
  - reflexivity.
  - reflexivity.
  - lra.
  - simpl; lra.
  - exists sim', v'. split; [exact Hrun|]. split; [exact Hv|].
    split; [rewrite Heq; vm_compute; reflexivity|].
    split; [exact Hup|].
    apply Hlim. simpl; lra.
Defined.

Lemma follower_update_local_witness :
  exists sim1' sim2',
    run_step float_sqrt simulacionPoo 0 = Ok sim1'
    /\ run_step float_sqrt simulacionPoo_moved 2 = Ok sim2'
    /\ s sim1' !! 1%nat = s sim2' !! 1%nat /\ v sim1' !! 1%nat = v sim2' !! 1%nat.
Proof.
  apply (follower_update_local float_sqrt simulacionPoo simulacionPoo_moved 0 2 1).
  - apply init_wf.
  - split; reflexivity.
  - exact simulacionPoo_valid.
  - reflexivity.
  - simpl; lia.
  - reflexivity.
  - reflexivity.
  - reflexivity.
  - reflexivity.
Defined.

Lemma jam_standstill_witness :
  exists sim' s_i s',
    run_step float_sqrt small_ring_jam 0 = Ok sim'
    /\ v sim' !! 1%nat = Some 0
    /\ s small_ring_jam !! 1%nat = Some s_i
    /\ s sim' !! 1%nat = Some s' /\ s' == s_i.
Proof.
  apply (jam_standstill float_sqrt small_ring_jam 0 1 0 1).
  - split; reflexivity.
  - split; simpl; lra.
  - intros [|[|i]] x Hx; simpl in Hx; try discriminate Hx;
      injection Hx as <-; simpl; lra.
  - simpl; lia.
  - simpl; lra.
  - simpl; lra.
  - simpl; lra.
  - vm_compute. intros H; discriminate H.
  - vm_compute. intros H; discriminate H.
  - reflexivity.
  - reflexivity.
  - reflexivity.
  - simpl; lra.
Defined.

Lemma position_follows_velocity_witness :
  exists sim' s_i v' s',
    run_step float_sqrt simulacionPoo 0 = Ok sim'
    /\ s simulacionPoo !! 3%nat = Some s_i
    /\ v sim' !! 3%nat = Some v'
    /\ s sim' !! 3%nat = Some s'
    /\ s' == Qmod (s_i + v' * DT simulacionPoo) (CIRC simulacionPoo).
Proof.
  apply (position_follows_velocity float_sqrt simulacionPoo 0 3).
  - apply init_wf.
  - exact simulacionPoo_valid.
  - exact simulacionPoo_in_ring.
  - simpl; lia.
Defined.

Lemma run_zero_timestep_raises_witness :
  (exists sim', run_step float_sqrt small_ring_frozen 0 = Ok sim')
  /\ run float_sqrt 1 small_ring_frozen = Raise ZeroDivisionError.
Proof.
  apply (run_zero_timestep_raises float_sqrt small_ring_frozen 0).
  - apply init_wf.
  - split; simpl; lra.
  - reflexivity.
  - simpl; lra.
Defined.



Lemma rotation_invariance_witness :
  exists sim1' sim2',
    run_step float_sqrt small_ring 0 = Ok sim1'
    /\ run_step float_sqrt small_ring_shifted 0 = Ok sim2'
    /\ Forall2 Qeq (v sim1') (v sim2')
    /\ forall i, (i < N small_ring)%nat ->
         pos sim2' i == Qmod (pos sim1' i + 3) (CIRC small_ring).
Proof.
  apply (rotation_invariance float_sqrt small_ring small_ring_shifted 0 3).
  - apply init_wf.
  - split; reflexivity.
  - exact small_ring_valid.
  - exact small_ring_in_ring.
  - simpl; lra.
  - reflexivity.
  - reflexivity.
  - intros [|[|i]] Hi; [vm_compute; reflexivity | vm_compute; reflexivity |].
    simpl in Hi. lia.
Defined.

Lemma run_step_frame_witness :
  exists sim',
    run_step float_sqrt small_ring 0 = Ok sim'
    /\ parameters sim' = parameters small_ring
    /\ length (s sim') = length (s small_ring)
    /\ length (v sim') = length (v small_ring).
Proof.
  destruct (run_step_total float_sqrt small_ring 0
              (init_wf _ _ _ _ _ _ _ _ _ _ _ _ _) small_ring_valid) as (b & _ & H).
  exists (step_spec float_sqrt small_ring b). split; [exact H|].
  exact (run_step_frame float_sqrt small_ring _ 0 H).
Defined.

Lemma run_first_frame_witness :
  exists st sim1 rest,
    run float_sqrt 2 small_ring = Ok st
    /\ run_step float_sqrt small_ring 0 = Ok sim1
    /\ frames_of st = (0, s sim1) :: rest.
Proof.
  destruct (run float_sqrt 2 small_ring) as [st|e] eqn:E.
  - destruct (run_first_frame float_sqrt small_ring 1 st) as (sim1 & rest & H1 & H2).
    + simpl; lra.
    + vm_compute. intros H; discriminate H.
    + exact E.
    + exists st, sim1, rest. split; [reflexivity|]. split; [exact H1 | exact H2].
  - vm_compute in E. discriminate E.
Defined.

Lemma run_step_short_arrays_witness :
  run_step float_sqrt small_ring_short 0 = Raise IndexError.
Proof.
  apply (run_step_short_arrays float_sqrt small_ring_short 0).
  - split; simpl; lra.
  - left. simpl. lia.
Defined.


End TrafficSimulation.
